(** * Vault policy privilege-escalation checker

    A shallow embedding of the checker built by [initZ3Checker]:
    [comparePathPriority], [buildRegexFromPath], [buildCapabilitiesMatch],
    [buildPolicyMatch] and [checkPrivilegeEscalation], together with the
    fragment of the Z3 term language these functions construct and its
    standard semantics (strings, regular-expression membership, booleans). *)

From Stdlib Require Import ZArith Lia Bool List Ascii String.
From Stdlib Require Import Sorted Permutation.
Import ListNotations.

Local Open Scope string_scope.
Local Open Scope Z_scope.

Set Warnings "-register-all".

(** ** The JavaScript values the checker computes with *)

Module JS.

(** The numbers that occur in [comparePathPriority]: string indices, string
    lengths and their differences (all far below 2^53, hence exact), the two
    infinities produced by [Infinity] and the not-a-number value. *)
Inductive number : Type :=
| Fin (z : Z)
| PosInf
| NegInf
| NaN.

(** [a - b] *)
Definition sub (a b : number) : number :=
  match a, b with
  | NaN, _ | _, NaN => NaN
  | Fin x, Fin y => Fin (x - y)
  | Fin _, PosInf => NegInf
  | Fin _, NegInf => PosInf
  | PosInf, PosInf => NaN
  | PosInf, _ => PosInf
  | NegInf, NegInf => NaN
  | NegInf, _ => NegInf
  end.

(** unary [-a] *)
Definition neg (a : number) : number :=
  match a with
  | Fin x => Fin (- x)
  | PosInf => NegInf
  | NegInf => PosInf
  | NaN => NaN
  end.

(** [Math.min(a, b)] *)
Definition Math_min (a b : number) : number :=
  match a, b with
  | NaN, _ | _, NaN => NaN
  | NegInf, _ | _, NegInf => NegInf
  | PosInf, y => y
  | x, PosInf => x
  | Fin x, Fin y => Fin (Z.min x y)
  end.

(** [a !== b] on numbers: [NaN] differs from everything, itself included. *)
Definition strict_neq (a b : number) : bool :=
  match a, b with
  | Fin x, Fin y => negb (x =? y)
  | PosInf, PosInf => false
  | NegInf, NegInf => false
  | _, _ => true
  end.

(** [a < 0] and [a > 0], the two tests a sort makes on a comparator's result. *)
Definition lt0 (a : number) : bool :=
  match a with
  | Fin x => x <? 0
  | NegInf => true
  | _ => false
  end.

Definition gt0 (a : number) : bool :=
  match a with
  | Fin x => 0 <? x
  | PosInf => true
  | _ => false
  end.

(** Strings are sequences of 8-bit characters; on the pattern alphabet, which
    is ASCII, they coincide with JavaScript's sequences of code units. *)

(** [s.length] *)
Definition length (s : string) : Z := Z.of_nat (String.length s).

(** [s.indexOf(c)] for a one-character needle: the first index holding [c],
    or [-1]. *)
Fixpoint indexOf_from (c : ascii) (s : string) (i : Z) : Z :=
  match s with
  | EmptyString => -1
  | String a rest => if Ascii.eqb a c then i else indexOf_from c rest (i + 1)
  end.

Definition indexOf (s : string) (c : ascii) : Z := indexOf_from c s 0.

(** [s.endsWith(c)] for a one-character suffix. *)
Fixpoint endsWith (s : string) (c : ascii) : bool :=
  match s with
  | EmptyString => false
  | String a EmptyString => Ascii.eqb a c
  | String _ rest => endsWith rest c
  end.

(** [(s.match(/\+/g) || []).length]: the number of occurrences of [c]. *)
Fixpoint count_char (c : ascii) (s : string) : Z :=
  match s with
  | EmptyString => 0
  | String a rest => (if Ascii.eqb a c then 1 else 0) + count_char c rest
  end.

(** [s.split(/([+]|\*$)/)]: the string is cut at every [+] and at a [*] that is
    its last character; the capture group puts each separator into the result,
    and the piece after the last separator is kept even when it is empty.
    [acc] is the piece read so far. *)
Fixpoint split_from (s : string) (acc : string) : list string :=
  match s with
  | EmptyString => [acc]
  | String a rest =>
      if Ascii.eqb a "+" then acc :: "+" :: split_from rest ""
      else if Ascii.eqb a "*" && (rest =? "")%string then acc :: "*" :: split_from rest ""
      else split_from rest (acc ++ String a "")
  end.

Definition split (s : string) : list string := split_from s "".

(** [arr.includes(x)] and [arr.some(f)] on arrays of strings. *)
Definition includes (arr : list string) (x : string) : bool :=
  existsb (String.eqb x) arr.

Definition some (f : string -> bool) (arr : list string) : bool :=
  existsb f arr.

(** [arr.sort(comparefn)].  The language requires the result to be the stable
    sorted arrangement whenever [comparefn] is a consistent comparator, and
    leaves the algorithm open; the embedding uses a stable insertion sort:
    [x] goes in front of the first [y] with [comparefn(x, y) <= 0]. *)
Section Sort.
Variable comparefn : string -> string -> number.

Fixpoint insert (x : string) (l : list string) : list string :=
  match l with
  | [] => [x]
  | y :: l' => if gt0 (comparefn x y) then y :: insert x l' else x :: y :: l'
  end.

Definition sort (l : list string) : list string := fold_right insert [] l.
End Sort.

End JS.

(** ** The Z3 terms the checker builds *)

Module Z3.

(** The verdict of [Z3.solver_check]. *)
Inductive Z3_lbool : Type := Z3_L_FALSE | Z3_L_UNDEF | Z3_L_TRUE.

(** [Z3.mk_string(ctx, s)] does not take [s] as it is written: Z3 reads the
    escapes [\u{h}] ... [\u{hhhhh}] (one to five hexadecimal digits) and
    [\uhhhh] (four) and puts the character with that code in their place.
    [decode s] is the string value Z3 reads from [s].  An escape whose code is
    above 255 stands for a character that the 8-bit characters used here do
    not have; it is left as written. *)
Definition backslash : ascii := "092"%char.

Definition hex_digit (c : ascii) : option N :=
  let n := N_of_ascii c in
  if ((48 <=? n) && (n <=? 57))%N then Some (n - 48)%N
  else if ((65 <=? n) && (n <=? 70))%N then Some (n - 55)%N
  else if ((97 <=? n) && (n <=? 102))%N then Some (n - 87)%N
  else None.

(** What follows [\u{]: hexadecimal digits and the closing brace, all within
    the next [fuel] characters. *)
Fixpoint braced_escape (fuel : nat) (s : string) (value : N)
  : option (N * string) :=
  match fuel, s with
  | S fuel', String c rest =>
      match hex_digit c with
      | Some d => braced_escape fuel' rest (16 * value + d)%N
      | None => if Ascii.eqb c "}" then Some (value, rest) else None
      end
  | _, _ => None
  end.

(** What follows [\u] when no brace does: exactly four hexadecimal digits. *)
Definition four_digit_escape (s : string) : option (N * string) :=
  match s with
  | String c1 (String c2 (String c3 (String c4 rest))) =>
      match hex_digit c1, hex_digit c2, hex_digit c3, hex_digit c4 with
      | Some d1, Some d2, Some d3, Some d4 =>
          Some (((d1 * 16 + d2) * 16 + d3) * 16 + d4, rest)%N
      | _, _, _, _ => None
      end
  | _ => None
  end.

(** The escape at the head of [s], if there is one: its code and the rest of
    the string. *)
Definition escape_char (s : string) : option (N * string) :=
  match s with
  | String b (String u rest) =>
      if Ascii.eqb b backslash && Ascii.eqb u "u" then
        match rest with
        | String c rest' =>
            if Ascii.eqb c "{" then
              match rest' with
              | String d _ =>
                  if Ascii.eqb d "}" then None else braced_escape 6 rest' 0
              | EmptyString => None
              end
            else four_digit_escape rest
        | EmptyString => None
        end
      else None
  | _ => None
  end.

Fixpoint decode_from (fuel : nat) (s : string) : string :=
  match fuel, s with
  | S fuel', String c rest =>
      match escape_char s with
      | Some (code, remaining) =>
          if (code <=? 255)%N then String (ascii_of_N code) (decode_from fuel' remaining)
          else String c (decode_from fuel' rest)
      | None => String c (decode_from fuel' rest)
      end
  | _, _ => s
  end.

Definition decode (s : string) : string := decode_from (String.length s) s.

(** Terms of string sort: a string constant ([Z3.mk_const] with a string
    symbol and the string sort) and a string literal, which holds the value
    it denotes. *)
Inductive seq_ast : Type :=
| mk_const (name : string)
| string_value (value : string).

(** [Z3.mk_string(ctx, s)]: the literal with the value Z3 reads from [s]. *)
Definition mk_string (s : string) : seq_ast := string_value (decode s).

(** Terms of regular-expression sort.  [mk_re_union] and [mk_re_concat] take
    an array of operands. *)
Inductive re_ast : Type :=
| mk_re_range (lo hi : seq_ast)
| mk_seq_to_re (s : seq_ast)
| mk_re_union (args : list re_ast)
| mk_re_star (r : re_ast)
| mk_re_plus (r : re_ast)
| mk_re_concat (args : list re_ast).

(** Terms of boolean sort. *)
Inductive bool_ast : Type :=
| mk_false
| mk_eq (a b : seq_ast)
| mk_seq_in_re (s : seq_ast) (r : re_ast)
| mk_not (a : bool_ast)
| mk_or (args : list bool_ast)
| mk_and (args : list bool_ast)
| mk_ite (c t e : bool_ast).

(** A model interprets the string constants. *)
Definition model : Type := string -> string.

Definition eval_seq (m : model) (t : seq_ast) : string :=
  match t with
  | mk_const name => m name
  | string_value value => value
  end.

(** *** Regular-expression membership *)

(** The character class denoted by [re.range lo hi]: both bounds must be
    literals of one character, otherwise the range is empty. *)
Definition in_range (lo hi : seq_ast) (c : ascii) : bool :=
  match lo, hi with
  | string_value (String l EmptyString), string_value (String h EmptyString) =>
      (N_of_ascii l <=? N_of_ascii c)%N && (N_of_ascii c <=? N_of_ascii h)%N
  | _, _ => false
  end.

(** The language of a regular expression, as a relation.  The checker hands
    [mk_seq_to_re] nothing but literals; the one word of [mk_seq_to_re] of a
    literal is the value of the literal, and [mk_seq_to_re] of a constant,
    whose word would depend on the model, is given none. *)
Inductive in_re : re_ast -> string -> Prop :=
| in_re_range lo hi c :
    in_range lo hi c = true -> in_re (mk_re_range lo hi) (String c "")
| in_re_lit value : in_re (mk_seq_to_re (string_value value)) value
| in_re_union args r s :
    In r args -> in_re r s -> in_re (mk_re_union args) s
| in_re_star_nil r : in_re (mk_re_star r) ""
| in_re_star_app r s1 s2 :
    in_re r s1 -> in_re (mk_re_star r) s2 -> in_re (mk_re_star r) (s1 ++ s2)
| in_re_plus r s1 s2 :
    in_re r s1 -> in_re (mk_re_star r) s2 -> in_re (mk_re_plus r) (s1 ++ s2)
| in_re_concat_nil : in_re (mk_re_concat []) ""
| in_re_concat_cons r rs s1 s2 :
    in_re r s1 -> in_re (mk_re_concat rs) s2 ->
    in_re (mk_re_concat (r :: rs)) (s1 ++ s2).

(** The same language, decided with Brzozowski derivatives.  The empty
    language is [mk_re_union []], the empty word the literal without
    characters. *)
Definition re_none : re_ast := mk_re_union [].
Definition re_eps : re_ast := mk_seq_to_re (string_value "").

Fixpoint nullable (r : re_ast) : bool :=
  match r with
  | mk_re_range _ _ => false
  | mk_seq_to_re (string_value value) => (value =? "")%string
  | mk_seq_to_re (mk_const _) => false
  | mk_re_union args => existsb nullable args
  | mk_re_star _ => true
  | mk_re_plus r' => nullable r'
  | mk_re_concat args => forallb nullable args
  end.

Fixpoint deriv (c : ascii) (r : re_ast) : re_ast :=
  match r with
  | mk_re_range lo hi => if in_range lo hi c then re_eps else re_none
  | mk_seq_to_re (string_value (String a value)) =>
      if Ascii.eqb a c then mk_seq_to_re (string_value value) else re_none
  | mk_seq_to_re _ => re_none
  | mk_re_union args => mk_re_union (map (deriv c) args)
  | mk_re_star r' => mk_re_concat [deriv c r'; mk_re_star r']
  | mk_re_plus r' => mk_re_concat [deriv c r'; mk_re_star r']
  | mk_re_concat args =>
      (fix deriv_concat (l : list re_ast) : re_ast :=
         match l with
         | [] => re_none
         | r' :: rs =>
             mk_re_union
               [mk_re_concat (deriv c r' :: rs);
                if nullable r' then deriv_concat rs else re_none]
         end) args
  end.

Fixpoint re_match (r : re_ast) (s : string) : bool :=
  match s with
  | EmptyString => nullable r
  | String c rest => re_match (deriv c r) rest
  end.

(** *** Truth of a boolean term in a model *)

Fixpoint eval (m : model) (e : bool_ast) : bool :=
  match e with
  | mk_false => false
  | mk_eq a b => (eval_seq m a =? eval_seq m b)%string
  | mk_seq_in_re s r => re_match r (eval_seq m s)
  | mk_not a => negb (eval m a)
  | mk_or args => existsb (eval m) args
  | mk_and args => forallb (eval m) args
  | mk_ite c t e' => if eval m c then eval m t else eval m e'
  end.

End Z3.

(** ** The checker *)

(** A policy is the object handed to the checker: path pattern to capability
    array.  It is kept as the list of its own properties in the order
    [Object.keys] enumerates them; an object holds each key once. *)
Definition Policy : Type := list (string * list string).

(** [Object.keys(rules)] *)
Definition Object_keys (rules : Policy) : list string := map fst rules.

(** [rules[p]], read only at keys of [rules]. *)
Fixpoint get (rules : Policy) (p : string) : list string :=
  match rules with
  | [] => []
  | (k, v) :: rest => if (k =? p)%string then v else get rest p
  end.

Definition wf_policy (rules : Policy) : Prop := NoDup (Object_keys rules).

(** [firstWildcard1] and [firstWildcard2] of rule 1: the smaller of the
    position of the first [+] and the position of the first [*], each replaced
    by [Infinity] when absent. *)
Definition firstWildcard (path : string) : JS.number :=
  JS.Math_min
    (if JS.indexOf path "+" >? -1 then JS.Fin (JS.indexOf path "+") else JS.PosInf)
    (if JS.indexOf path "*" >? -1 then JS.Fin (JS.indexOf path "*") else JS.PosInf).

Section Priority.

(** [String.prototype.localeCompare] of the host, [localeCompare this that]. *)
Variable localeCompare : string -> string -> Z.

Definition comparePathPriority (path1 path2 : string) : JS.number :=
  let firstWildcard1 := firstWildcard path1 in
  let firstWildcard2 := firstWildcard path2 in
  if JS.strict_neq firstWildcard1 firstWildcard2 then
    JS.sub firstWildcard1 firstWildcard2
  else
    let endsWithStar1 := JS.endsWith path1 "*" in
    let endsWithStar2 := JS.endsWith path2 "*" in
    if negb (Bool.eqb endsWithStar1 endsWithStar2) then
      (if endsWithStar1 then JS.Fin (-1) else JS.Fin 1)
    else
      let plusCount1 := JS.count_char "+" path1 in
      let plusCount2 := JS.count_char "+" path2 in
      if negb (plusCount1 =? plusCount2) then
        JS.Fin (plusCount2 - plusCount1)
      else if negb (JS.length path1 =? JS.length path2) then
        JS.Fin (JS.length path1 - JS.length path2)
      else
        JS.Fin (localeCompare path2 path1).

End Priority.

(** The six character classes of a wildcard. *)
Definition wildcardRanges : list Z3.re_ast :=
  [ Z3.mk_re_range (Z3.mk_string "a") (Z3.mk_string "z");
    Z3.mk_re_range (Z3.mk_string "A") (Z3.mk_string "Z");
    Z3.mk_re_range (Z3.mk_string "0") (Z3.mk_string "9");
    Z3.mk_seq_to_re (Z3.mk_string "-");
    Z3.mk_seq_to_re (Z3.mk_string "_");
    Z3.mk_seq_to_re (Z3.mk_string ".") ].

(** What one piece of the split pattern pushes onto [reParts]. *)
Definition rePart (part : string) : list Z3.re_ast :=
  if (part =? "*")%string then
    [Z3.mk_re_star
       (Z3.mk_re_union
          (wildcardRanges ++ [Z3.mk_seq_to_re (Z3.mk_string "/")])%list)]
  else if (part =? "+")%string then
    [Z3.mk_re_plus (Z3.mk_re_union wildcardRanges)]
  else if negb (part =? "")%string then
    [Z3.mk_seq_to_re (Z3.mk_string part)]
  else [].

(** [buildRegexFromPath]; [None] is the [undefined] that [reParts[0]] yields
    when nothing was pushed. *)
Definition buildRegexFromPath (path : string) : option Z3.re_ast :=
  let reParts := flat_map rePart (JS.split path) in
  if Z.of_nat (List.length reParts) <? 2 then nth_error reParts 0
  else Some (Z3.mk_re_concat reParts).

Definition buildCapabilitiesMatch (inputCap : Z3.seq_ast)
    (capabilities : list string) : Z3.bool_ast :=
  let capMatches :=
    map (fun cap => Z3.mk_eq inputCap (Z3.mk_string cap))
        (filter (fun cap => negb (cap =? "deny")%string) capabilities) in
  if Z.of_nat (List.length capMatches) =? 0 then Z3.mk_false
  else Z3.mk_or capMatches.

(** [Z3.mk_seq_in_re(ctx, inputPath, buildRegexFromPath(ctx, p))].  Handed
    [undefined], the Z3 binding builds no term: the construction has no
    value, and the call of the checker it is part of ends with an error. *)
Definition pathMatch (inputPath : Z3.seq_ast) (p : string) : option Z3.bool_ast :=
  option_map (Z3.mk_seq_in_re inputPath) (buildRegexFromPath p).

(** [arr.map(f)] for an [f] that may have no value. *)
Fixpoint map_opt {A B : Type} (f : A -> option B) (l : list A) : option (list B) :=
  match l with
  | [] => Some []
  | x :: l' =>
      match f x, map_opt f l' with
      | Some y, Some ys => Some (y :: ys)
      | _, _ => None
      end
  end.

Section Builder.

Variable localeCompare : string -> string -> Z.
Variables inputPath inputCap : Z3.seq_ast.

Definition denyPaths (rules : Policy) : list string :=
  filter (fun p => JS.includes (get rules p) "deny") (Object_keys rules).

Definition isDenied (rules : Policy) : option Z3.bool_ast :=
  option_map Z3.mk_or (map_opt (pathMatch inputPath) (denyPaths rules)).

Definition allowPaths (rules : Policy) : list string :=
  filter (fun p => JS.some (fun c => negb (c =? "deny")%string) (get rules p))
         (Object_keys rules).

Definition sortedAllowPaths (rules : Policy) : list string :=
  JS.sort (comparePathPriority localeCompare) (allowPaths rules).

(** One turn of the loop over [sortedAllowPaths]. *)
Definition allowStep (rules : Policy) (isAllowed : option Z3.bool_ast)
    (path : string) : option Z3.bool_ast :=
  match isAllowed, pathMatch inputPath path with
  | Some acc, Some pathMatches =>
      Some (Z3.mk_ite pathMatches
              (buildCapabilitiesMatch inputCap (get rules path)) acc)
  | _, _ => None
  end.

Definition isAllowed (rules : Policy) : option Z3.bool_ast :=
  fold_left (allowStep rules) (sortedAllowPaths rules) (Some Z3.mk_false).

Definition buildPolicyMatch (rules : Policy) : option Z3.bool_ast :=
  match isDenied rules, isAllowed rules with
  | Some denied, Some allowed => Some (Z3.mk_and [allowed; Z3.mk_not denied])
  | _, _ => None
  end.

End Builder.

(** The value [checkPrivilegeEscalation] resolves to. *)
Record Z3PolicyAst : Type := {
  currentPolicyAst : string;
  newPolicyAst : string
}.

Record PolicyCheckResult : Type := {
  result : bool;
  path : option string;
  capability : option string;
  z3 : Z3PolicyAst
}.

(** The calls [checkPrivilegeEscalation] makes on the context, the solver and
    the model, in order. *)
Inductive Z3_call : Type :=
| call_mk_context
| call_mk_solver
| call_solver_inc_ref
| call_solver_assert (q : Z3.bool_ast)
| call_solver_check
| call_solver_get_model
| call_model_inc_ref
| call_model_dec_ref
| call_solver_dec_ref
| call_del_context.

Definition inputPath : Z3.seq_ast := Z3.mk_const "path".
Definition inputCap : Z3.seq_ast := Z3.mk_const "cap".

(** The query asserted on the solver: [NOT current_policy AND new_policy]. *)
Definition escalationQuery (currentPolicy newPolicy : Z3.bool_ast) : Z3.bool_ast :=
  Z3.mk_and [Z3.mk_not currentPolicy; newPolicy].

Section Checker.

Variable localeCompare : string -> string -> Z.

(** The solver: the verdict of [Z3.solver_check] on the asserted formula and
    the model [Z3.solver_get_model] hands out after it. *)
Variable solver_check : Z3.bool_ast -> Z3.Z3_lbool.
Variable solver_get_model : Z3.bool_ast -> Z3.model.

(** [Z3.ast_to_string] *)
Variable ast_to_string : Z3.bool_ast -> string.

Definition checkPrivilegeEscalation (currentRules newRules : Policy)
  : option (PolicyCheckResult * list Z3_call) :=
  match buildPolicyMatch localeCompare inputPath inputCap currentRules,
        buildPolicyMatch localeCompare inputPath inputCap newRules with
  | Some currentPolicy, Some newPolicy =>
      let z3PolicyAst :=
        {| currentPolicyAst := ast_to_string currentPolicy;
           newPolicyAst := ast_to_string newPolicy |} in
      let query := escalationQuery currentPolicy newPolicy in
      let setup :=
        [call_mk_context; call_mk_solver; call_solver_inc_ref;
         call_solver_assert query; call_solver_check] in
      match solver_check query with
      | Z3.Z3_L_TRUE =>
          let model := solver_get_model query in
          let examplePath := model "path" in
          let exampleCapability := model "cap" in
          Some ({| result := true;
                   path := Some examplePath;
                   capability := Some exampleCapability;
                   z3 := z3PolicyAst |},
                (setup ++ [call_solver_get_model; call_model_inc_ref;
                           call_model_dec_ref; call_solver_dec_ref;
                           call_del_context])%list)
      | _ =>
          Some ({| result := false;
                   path := None;
                   capability := None;
                   z3 := z3PolicyAst |},
                (setup ++ [call_solver_dec_ref; call_del_context])%list)
      end
  | _, _ => None
  end.

End Checker.

(** What the solver is trusted for on a query: a [sat] verdict comes with a
    model of the query, an [unsat] verdict means the query has no model. *)
Definition solver_sound_on (solver_check : Z3.bool_ast -> Z3.Z3_lbool)
    (solver_get_model : Z3.bool_ast -> Z3.model) (q : Z3.bool_ast) : Prop :=
  (solver_check q = Z3.Z3_L_TRUE -> Z3.eval (solver_get_model q) q = true) /\
  (solver_check q = Z3.Z3_L_FALSE -> forall m, Z3.eval m q = false).

(** What the host's [localeCompare] is trusted for: it answers with exactly
    opposite numbers when its operands are swapped, it is transitive, and it
    tells different patterns apart. *)
Record consistent_collation (localeCompare : string -> string -> Z) : Prop := {
  lc_opp : forall a b, localeCompare a b = - localeCompare b a;
  lc_trans : forall a b c,
      localeCompare a b < 0 -> localeCompare b c < 0 -> localeCompare a c < 0;
  lc_eq : forall a b, localeCompare a b = 0 -> a = b
}.

(** ** Reference instances, used to run the checker on concrete requests *)

(** A collation that orders strings by character code and answers -1, 0, 1. *)
Definition codeUnitCompare (a b : string) : Z :=
  match String.compare a b with
  | Lt => -1
  | Eq => 0
  | Gt => 1
  end.

(** The model that interprets [path] and [cap] as given. *)
Definition model_of (examplePath exampleCapability : string) : Z3.model :=
  fun name =>
    if (name =? "path")%string then examplePath
    else if (name =? "cap")%string then exampleCapability
    else "".

(** Solvers with a fixed verdict. *)
Definition verdict (v : Z3.Z3_lbool) : Z3.bool_ast -> Z3.Z3_lbool := fun _ => v.
Definition fixed_model (m : Z3.model) : Z3.bool_ast -> Z3.model := fun _ => m.

(** A renderer that prints nothing. *)
Definition no_rendering : Z3.bool_ast -> string := fun _ => "".

(** Scenario 6 of the test plan. *)
Definition scenario6_current : Policy := [("secret/app/+", ["read"])].
Definition scenario6_new : Policy := [("secret/app/*", ["read"])].

(** The literal alphabet of a wildcard, and the same with [/]. *)
Definition literal_char (c : ascii) : bool :=
  existsb (fun r => Z3.re_match r (String c "")) wildcardRanges.

Definition path_char (c : ascii) : bool :=
  literal_char c || Ascii.eqb c "/".

Fixpoint all_chars (f : ascii -> bool) (s : string) : bool :=
  match s with
  | EmptyString => true
  | String c rest => f c && all_chars f rest
  end.

Fixpoint has_char (c : ascii) (s : string) : bool :=
  match s with
  | EmptyString => false
  | String a rest => Ascii.eqb a c || has_char c rest
  end.

(** A character the priority order takes for a wildcard. *)
Definition is_wildcard_char (c : ascii) : bool :=
  Ascii.eqb c "+" || Ascii.eqb c "*".

(** [firstWildcard], with indices counted from [i]. *)
Definition firstWildcard_from (path : string) (i : Z) : JS.number :=
  JS.Math_min
    (if JS.indexOf_from "+" path i >? -1
     then JS.Fin (JS.indexOf_from "+" path i) else JS.PosInf)
    (if JS.indexOf_from "*" path i >? -1
     then JS.Fin (JS.indexOf_from "*" path i) else JS.PosInf).

(** Whether the compiled pattern [p] matches the value of [inputPath]. *)
Definition path_matches (m : Z3.model) (inputPath : Z3.seq_ast) (p : string) : bool :=
  match buildRegexFromPath p with
  | Some re => Z3.re_match re (Z3.eval_seq m inputPath)
  | None => false
  end.

(** Whether the capability list grants the value of [inputCap]: some entry
    other than [deny] is read by Z3 as that value. *)
Definition grants (m : Z3.model) (inputCap : Z3.seq_ast) (capabilities : list string) : bool :=
  existsb (fun cap => negb (cap =? "deny")%string
                      && (Z3.eval_seq m inputCap =? Z3.decode cap)%string) capabilities.

(** [p] does not outrank [q]: a sort may leave [p] in front of [q]. *)
Definition not_above (localeCompare : string -> string -> Z) (p q : string) : Prop :=
  JS.gt0 (comparePathPriority localeCompare p q) = false.

(** The new rules of the last request of [runDemo]. *)
Definition demo_policy : Policy :=
  [ ("secret/users", ["read"]);
    ("secret/posts/*", ["read"; "write"]);
    ("secret/posts/admin", ["deny"]);
    ("secret/posts/ad", ["read"]) ].

(** Two enumeration orders of one mapping with two deny rules. *)
Definition two_denies : Policy := [("a", ["deny"]); ("b", ["deny"])].
Definition two_denies_swapped : Policy := [("b", ["deny"]); ("a", ["deny"])].

(** The formula [checkPrivilegeEscalation] asserts for a request, when both
    policy formulas have a value. *)
Definition policyQuery (localeCompare : string -> string -> Z)
    (currentRules newRules : Policy) : option Z3.bool_ast :=
  match buildPolicyMatch localeCompare inputPath inputCap currentRules,
        buildPolicyMatch localeCompare inputPath inputCap newRules with
  | Some currentPolicy, Some newPolicy =>
      Some (escalationQuery currentPolicy newPolicy)
  | _, _ => None
  end.


(** What is left of [s] after the prefix [pre]. *)
Fixpoint strip_prefix (pre s : string) : option string :=
  match pre, s with
  | EmptyString, _ => Some s
  | String a pre', String b s' =>
      if Ascii.eqb a b then strip_prefix pre' s' else None
  | String _ _, EmptyString => None
  end.

(** Whether [examplePath] has a [/] after the prefix [secret/app/]. *)
Definition slash_after_prefix (examplePath : string) : bool :=
  match strip_prefix "secret/app/" examplePath with
  | Some rest => has_char "/" rest
  | None => false
  end.




(** The regular expressions and formulas of scenario 6. *)
Definition secret_app_plus : Z3.re_ast :=
  Z3.mk_re_concat
    [Z3.mk_seq_to_re (Z3.mk_string "secret/app/");
     Z3.mk_re_plus (Z3.mk_re_union wildcardRanges)].

Definition secret_app_star : Z3.re_ast :=
  Z3.mk_re_concat
    [Z3.mk_seq_to_re (Z3.mk_string "secret/app/");
     Z3.mk_re_star
       (Z3.mk_re_union
          (wildcardRanges ++ [Z3.mk_seq_to_re (Z3.mk_string "/")])%list)].

Definition read_on (re : Z3.re_ast) : Z3.bool_ast :=
  Z3.mk_and
    [Z3.mk_ite (Z3.mk_seq_in_re inputPath re)
       (Z3.mk_or [Z3.mk_eq inputCap (Z3.mk_string "read")]) Z3.mk_false;
     Z3.mk_not (Z3.mk_or [])].

(** ** The demo and the page around the checker *)

(** A pattern without [+] and without [*]. *)
Definition no_wildcard (p : string) : bool :=
  all_chars (fun c => negb (is_wildcard_char c)) p.

(** The two wildcard operands that [buildRegexFromPath] pushes. *)
Definition plus_wildcard : Z3.re_ast :=
  Z3.mk_re_plus (Z3.mk_re_union wildcardRanges).


(** How a template literal prints a value that is a string or [null]. *)
Definition template (v : option string) : string :=
  match v with
  | Some s => s
  | None => "null"
  end.

(** The policies of the three requests of [runDemo]; the current rules are
    the same in all three. *)
Definition demo_current : Policy :=
  [ ("secret/users", ["read"]);
    ("secret/posts/*", ["read"; "write"]);
    ("secret/posts/admin", ["deny"]) ].

Definition demo_new_1 : Policy :=
  [ ("secret/users", ["read"]);
    ("secret/posts/*", ["read"; "write"]);
    ("secret/posts/admin", ["read"]) ].

Definition demo_new_2 : Policy := demo_current.

Definition demo_new_3 : Policy := demo_policy.

Section Demo.

Variable localeCompare : string -> string -> Z.
Variable solver_check : Z3.bool_ast -> Z3.Z3_lbool.
Variable solver_get_model : Z3.bool_ast -> Z3.model.
Variable ast_to_string : Z3.bool_ast -> string.

(** [testAndPrint]: the lines it writes with [console.log]. *)
Definition testAndPrint (currentRules newRules : Policy) : option (list string) :=
  match checkPrivilegeEscalation localeCompare solver_check solver_get_model
          ast_to_string currentRules newRules with
  | Some (resultWithDeny, _) =>
      if result resultWithDeny then
        Some [ "Privilege escalation detected!";
               "Example path: " ++ template (path resultWithDeny);
               "Example capability: " ++ template (capability resultWithDeny) ]
      else
        Some [ "No privilege escalation detected." ]
  | None => None
  end.

(** [runDemo]: the heading, then the three requests in turn. *)
Definition runDemo : option (list string) :=
  match testAndPrint demo_current demo_new_1,
        testAndPrint demo_current demo_new_2,
        testAndPrint demo_current demo_new_3 with
  | Some lines1, Some lines2, Some lines3 =>
      Some ((String (ascii_of_nat 10) "Testing with deny capability...")
            :: lines1 ++ lines2 ++ lines3)%list
  | _, _, _ => None
  end.

End Demo.

(** One [path] block of the parsed policy text. *)
Record Block : Type := { capabilities : list string }.

(** The object under [path] in the parser's output: pattern to the array of
    its blocks, as the list of its own properties in enumeration order. *)
Definition HclPaths : Type := list (string * list Block).

(** [obj[key] = value] on an object kept as the list of its own properties:
    an existing property is overwritten in place, a new one comes last.  On
    an object created by [{}] the key [__proto__] is the inherited accessor:
    assigning an array to it replaces the prototype and creates no own
    property. *)
Fixpoint assign (obj : Policy) (key : string) (value : list string) : Policy :=
  match obj with
  | [] => [(key, value)]
  | (k, v) :: rest =>
      if (k =? key)%string then (k, value) :: rest
      else (k, v) :: assign rest key value
  end.

Definition set_property (obj : Policy) (key : string) (value : list string) : Policy :=
  if (key =? "__proto__")%string then obj else assign obj key value.

(** [hclPathsToMap].  [value[0].capabilities] throws a [TypeError] when the
    array of blocks is empty; [None] is that throw. *)
Definition hclPathsToMap (hclPaths : HclPaths) : option Policy :=
  fold_left
    (fun (paths : option Policy) (entry : string * list Block) =>
       match paths, snd entry with
       | Some obj, block :: _ =>
           Some (set_property obj (fst entry) (capabilities block))
       | _, _ => None
       end)
    hclPaths (Some []).

(** What evaluating an expression gives: a value, or a thrown error with its
    message. *)
Inductive Outcome (A : Type) : Type :=
| Returned (a : A)
| Thrown (message : string).

Arguments Returned {A} a.
Arguments Thrown {A} message.

(** The state of the page that [handleCheck] writes. *)
Record PageState : Type := {
  isChecking : bool;
  error : option string;
  policyCheckResults : option PolicyCheckResult
}.

Definition setIsChecking (b : bool) (st : PageState) : PageState :=
  {| isChecking := b; error := error st;
     policyCheckResults := policyCheckResults st |}.

Definition setError (e : option string) (st : PageState) : PageState :=
  {| isChecking := isChecking st; error := e;
     policyCheckResults := policyCheckResults st |}.

Definition setPolicyCheckResults (r : option PolicyCheckResult) (st : PageState)
  : PageState :=
  {| isChecking := isChecking st; error := error st; policyCheckResults := r |}.

Section Page.

Variable localeCompare : string -> string -> Z.
Variable solver_check : Z3.bool_ast -> Z3.Z3_lbool.
Variable solver_get_model : Z3.bool_ast -> Z3.model.
Variable ast_to_string : Z3.bool_ast -> string.

(** [hcl.parseToObject(text)[0].path], as [Object.entries] receives it: the
    object of path blocks, or the error thrown on the way (by the parser, by
    reading [path] of [null], by [Object.entries] on [undefined]). *)
Variable hcl_path : string -> Outcome HclPaths.

(** The message of the [TypeError] of [value[0].capabilities]. *)
Variable capabilities_of_undefined : string.

(** The message of the error with which the check ends where the builders
    hand [undefined] to the Z3 binding. *)
Variable check_error_message : string.

(** [hclPathsToMap(hcl.parseToObject(text)[0].path)] *)
Definition policyObject (text : string) : Outcome Policy :=
  match hcl_path text with
  | Thrown message => Thrown message
  | Returned hclPaths =>
      match hclPathsToMap hclPaths with
      | Some paths => Returned paths
      | None => Thrown capabilities_of_undefined
      end
  end.

(** [handleCheck], from the state [st] of the page; [available] tells whether
    [checker.checkPrivilegeEscalation] is there.  The last [try] has a
    [catch] and a [finally]: where the check has no value it ends with an
    error, the [catch] shows its message and the [finally] clears the
    checking flag, as it does after the results are set. *)
Definition handleCheck (available : bool) (currentPolicy newPolicy : string)
    (st : PageState) : option PageState :=
  if negb available then
    Some (setError (Some "Checker is not yet available.") st)
  else
    let st := setIsChecking true st in
    let st := setPolicyCheckResults None st in
    let st := setError None st in
    match policyObject currentPolicy with
    | Thrown message =>
        let st := setError (Some ("Invalid HCL in current policy: " ++ message)) st in
        Some (setIsChecking false st)
    | Returned currentPolicyObject =>
        match policyObject newPolicy with
        | Thrown message =>
            let st := setError (Some ("Invalid HCL in new policy: " ++ message)) st in
            Some (setIsChecking false st)
        | Returned newPolicyObject =>
            match checkPrivilegeEscalation localeCompare solver_check
                    solver_get_model ast_to_string
                    currentPolicyObject newPolicyObject with
            | Some (results, _) =>
                let st := setPolicyCheckResults (Some results) st in
                Some (setIsChecking false st)
            | None =>
                let st :=
                  setError (Some ("An error occurred during check: "
                                  ++ check_error_message)) st in
                Some (setIsChecking false st)
            end
        end
    end.

End Page.

(** The value of the policy formula, read off the rules: the capability list
    of the last matching pattern of [sortedAllowPaths] grants the capability,
    and no deny pattern matches. *)
Definition formula_value (localeCompare : string -> string -> Z)
    (pathVar capVar : Z3.seq_ast) (rules : Policy) (m : Z3.model) : bool :=
  match find (path_matches m pathVar) (rev (sortedAllowPaths localeCompare rules)) with
  | Some p => grants m capVar (get rules p)
  | None => false
  end
  && negb (existsb (path_matches m pathVar) (denyPaths rules)).

(** How often a call occurs among the calls. *)
Definition is_call (c d : Z3_call) : bool :=
  match c, d with
  | call_mk_context, call_mk_context
  | call_mk_solver, call_mk_solver
  | call_solver_inc_ref, call_solver_inc_ref
  | call_solver_check, call_solver_check
  | call_solver_get_model, call_solver_get_model
  | call_model_inc_ref, call_model_inc_ref
  | call_model_dec_ref, call_model_dec_ref
  | call_solver_dec_ref, call_solver_dec_ref
  | call_del_context, call_del_context => true
  | call_solver_assert _, call_solver_assert _ => true
  | _, _ => false
  end.

Definition count_call (c : Z3_call) (calls : list Z3_call) : nat :=
  List.length (filter (is_call c) calls).


Definition initial_page : PageState :=
  {| isChecking := false; error := None; policyCheckResults := None |}.

(** A solver that answers [sat] with the model [m] when [m] satisfies the
    query and [unknown] otherwise; it is sound on every query. *)
Definition model_checking_solver (m : Z3.model) : Z3.bool_ast -> Z3.Z3_lbool :=
  fun q => if Z3.eval m q then Z3.Z3_L_TRUE else Z3.Z3_L_UNDEF.

(** A parsed policy text with two blocks for one pattern. *)
Definition two_blocks : HclPaths :=
  [ ("secret/app/*", [ {| capabilities := ["read"] |};
                       {| capabilities := ["write"; "sudo"] |} ]);
    ("secret/users", [ {| capabilities := ["list"] |} ]) ].

(** A policy with three rules that allow and two that deny, one rule doing
    both, and the same mapping enumerated in the opposite order. *)
Definition mixed_policy : Policy :=
  [ ("secret/posts/*", ["read"; "write"]);
    ("secret/posts/admin", ["deny"]);
    ("secret/posts/ad", ["read"]);
    ("secret/users/+", ["deny"; "list"]) ].

Definition mixed_policy_reversed : Policy := rev mixed_policy.

(** A parser under which every text holds one rule, for the empty pattern. *)
Definition empty_pattern_hcl_path (text : string) : Outcome HclPaths :=
  Returned [("", [{| capabilities := ["read"] |}])].

(** A string without a backslash holds no escape. *)
Definition no_backslash (s : string) : bool := negb (has_char Z3.backslash s).

(** A plain string: ASCII characters, none of them a backslash.  Z3 reads a
    plain string as it is written. *)
Definition is_plain_char (c : ascii) : bool :=
  (N_of_ascii c <? 128)%N && negb (Ascii.eqb c Z3.backslash).

Definition plain (s : string) : bool := all_chars is_plain_char s.

(** ** Properties of the rule priority order *)

Section PriorityFacts.

Variable localeCompare : string -> string -> Z.
Hypothesis collation : consistent_collation localeCompare.

Local Abbreviation compare := (comparePathPriority localeCompare).

Lemma firstWildcard_shape (p : string) :
  firstWildcard p = JS.PosInf \/ exists z, firstWildcard p = JS.Fin z.
Proof.
  unfold firstWildcard.
  destruct (JS.indexOf p "+" >? -1), (JS.indexOf p "*" >? -1); simpl; eauto.
Qed.

Lemma compare_opp (p q : string) : compare p q = JS.neg (compare q p).
Proof.
  unfold comparePathPriority.
  destruct (firstWildcard_shape p) as [Hp | [a Hp]];
    destruct (firstWildcard_shape q) as [Hq | [b Hq]];
    rewrite Hp, Hq; simpl; try reflexivity.
  all: rewrite (lc_opp _ collation p q).
  all: destruct (JS.endsWith p "*"), (JS.endsWith q "*"); simpl.
  all: repeat match goal with
         | |- context [Z.eqb ?x ?y] => destruct (Z.eqb_spec x y); simpl
         end.
  all: try reflexivity; try lia; try (f_equal; lia).
Qed.

Lemma compare_refl (p : string) : compare p p = JS.Fin 0.
Proof.
  assert (H0 : localeCompare p p = 0)
    by (pose proof (lc_opp _ collation p p); lia).
  unfold comparePathPriority.
  destruct (firstWildcard_shape p) as [Hp | [a Hp]]; rewrite Hp; simpl.
  all: rewrite ?Z.eqb_refl, Bool.eqb_reflx, ?Z.eqb_refl, H0; reflexivity.
Qed.

Ltac split_tests :=
  repeat match goal with
    | H : context [Z.eqb ?x ?y] |- _ => destruct (Z.eqb_spec x y); simpl in H
    | |- context [Z.eqb ?x ?y] => destruct (Z.eqb_spec x y); simpl
    | H : context [Z.ltb ?x ?y] |- _ => destruct (Z.ltb_spec x y); simpl in H
    | |- context [Z.ltb ?x ?y] => destruct (Z.ltb_spec x y); simpl
    end.

Lemma compare_trans (p q r : string) :
  JS.gt0 (compare p q) = true -> JS.gt0 (compare q r) = true ->
  JS.gt0 (compare p r) = true.
Proof.
  pose proof (lc_trans _ collation p q r) as Ht.
  pose proof (lc_opp _ collation p q) as Hpq.
  pose proof (lc_opp _ collation q r) as Hqr.
  pose proof (lc_opp _ collation p r) as Hpr.
  unfold comparePathPriority.
  destruct (firstWildcard_shape p) as [Hp | [a Hp]];
    destruct (firstWildcard_shape q) as [Hq | [b Hq]];
    destruct (firstWildcard_shape r) as [Hr | [c Hr]];
    rewrite Hp, Hq, Hr; simpl.
  all: destruct (JS.endsWith p "*"), (JS.endsWith q "*"),
         (JS.endsWith r "*"); simpl.
  all: intros H1 H2; split_tests; try discriminate; try reflexivity; try lia.
Qed.

Lemma compare_zero_eq (p q : string) :
  JS.gt0 (compare p q) = false -> JS.gt0 (compare q p) = false -> p = q.
Proof.
  pose proof (lc_eq _ collation p q) as He.
  pose proof (lc_opp _ collation p q) as Ho.
  unfold comparePathPriority.
  destruct (firstWildcard_shape p) as [Hp | [a Hp]];
    destruct (firstWildcard_shape q) as [Hq | [b Hq]];
    rewrite Hp, Hq; simpl.
  all: destruct (JS.endsWith p "*"), (JS.endsWith q "*"); simpl.
  all: intros H1 H2; split_tests; try discriminate; try lia.
  all: apply He; lia.
Qed.

Lemma compare_asym (p q : string) :
  JS.gt0 (compare p q) = true -> JS.gt0 (compare q p) = false.
Proof.
  rewrite (compare_opp q p).
  destruct (compare p q); simpl; try discriminate; try reflexivity.
  intros H. split_tests; try discriminate; try reflexivity; lia.
Qed.

Lemma compare_lt0_gt0 (p q : string) :
  JS.lt0 (compare p q) = JS.gt0 (compare q p).
Proof.
  rewrite (compare_opp q p).
  destruct (compare p q); simpl; try reflexivity.
  split_tests; try reflexivity; lia.
Qed.

(** C7. [comparePathPriority] is antisymmetric with exactly opposite
    results, gives 0 on equal patterns, and the priority relation "compare is
    positive" is a strict total order: irreflexive, transitive, and any two
    different patterns are ordered one way or the other. *)
Theorem comparePathPriority_strict_total_order :
  (forall p q, compare p q = JS.neg (compare q p)) /\
  (forall p, compare p p = JS.Fin 0) /\
  (forall p q r,
      JS.gt0 (compare p q) = true -> JS.gt0 (compare q r) = true ->
      JS.gt0 (compare p r) = true) /\
  (forall p q, JS.gt0 (compare p q) = true -> JS.gt0 (compare q p) = false) /\
  (forall p q,
      p <> q -> JS.gt0 (compare p q) = true \/ JS.gt0 (compare q p) = true).
Proof.
  split; [exact compare_opp |].
  split; [exact compare_refl |].
  split; [exact compare_trans |].
  split; [exact compare_asym |].
  intros p q Hne.
  destruct (JS.gt0 (compare p q)) eqn:H1; [now left |].
  destruct (JS.gt0 (compare q p)) eqn:H2; [now right |].
  exfalso. apply Hne. now apply compare_zero_eq.
Qed.

End PriorityFacts.

(** The reference collation is consistent. *)
Lemma ascii_compare_lt_trans (a b c : ascii) :
  Ascii.compare a b = Lt -> Ascii.compare b c = Lt -> Ascii.compare a c = Lt.
Proof.
  unfold Ascii.compare. rewrite !N.compare_lt_iff. lia.
Qed.

Lemma string_compare_lt_trans (a b c : string) :
  String.compare a b = Lt -> String.compare b c = Lt -> String.compare a c = Lt.
Proof.
  revert b c. induction a as [| x a IH]; intros [| y b] [| z c]; simpl;
    try discriminate; try reflexivity.
  destruct (Ascii.compare x y) eqn:Hxy; try discriminate.
  - apply Ascii.compare_eq_iff in Hxy. subst y.
    destruct (Ascii.compare x z) eqn:Hxz; try discriminate; eauto.
  - intros _.
    destruct (Ascii.compare y z) eqn:Hyz; try discriminate.
    + apply Ascii.compare_eq_iff in Hyz. subst z. now rewrite Hxy.
    + intros _. now rewrite (ascii_compare_lt_trans x y z).
Qed.

Lemma codeUnitCompare_consistent : consistent_collation codeUnitCompare.
Proof.
  unfold codeUnitCompare. split.
  - intros a b. rewrite (String.compare_antisym a b).
    destruct (String.compare b a); reflexivity.
  - intros a b c.
    destruct (String.compare a b) eqn:Hab; try lia.
    destruct (String.compare b c) eqn:Hbc; try lia.
    now rewrite (string_compare_lt_trans a b c).
  - intros a b.
    destruct (String.compare a b) eqn:Hab; try lia.
    intros _. now apply String.compare_eq_iff.
Qed.

Lemma comparePathPriority_strict_total_order_witness :
  (forall p q,
      comparePathPriority codeUnitCompare p q
      = JS.neg (comparePathPriority codeUnitCompare q p)) /\
  (forall p, comparePathPriority codeUnitCompare p p = JS.Fin 0) /\
  (forall p q r,
      JS.gt0 (comparePathPriority codeUnitCompare p q) = true ->
      JS.gt0 (comparePathPriority codeUnitCompare q r) = true ->
      JS.gt0 (comparePathPriority codeUnitCompare p r) = true) /\
  (forall p q,
      JS.gt0 (comparePathPriority codeUnitCompare p q) = true ->
      JS.gt0 (comparePathPriority codeUnitCompare q p) = false) /\
  (forall p q,
      p <> q ->
      JS.gt0 (comparePathPriority codeUnitCompare p q) = true \/
      JS.gt0 (comparePathPriority codeUnitCompare q p) = true).
Proof.
  exact (comparePathPriority_strict_total_order codeUnitCompare
           codeUnitCompare_consistent).
Defined.

(** ** The first tie-breaker *)

Lemma indexOf_from_range (c : ascii) (s : string) (i : Z) :
  JS.indexOf_from c s i = -1 \/ i <= JS.indexOf_from c s i.
Proof.
  revert i. induction s as [| a s IH]; intros i; simpl; [now left |].
  destruct (Ascii.eqb a c); [right; lia |].
  destruct (IH (i + 1)); [now left | right; lia].
Qed.

Lemma firstWildcard_from_nil (i : Z) : firstWildcard_from "" i = JS.PosInf.
Proof. reflexivity. Qed.

Lemma firstWildcard_from_cons (a : ascii) (s : string) (i : Z) :
  0 <= i ->
  firstWildcard_from (String a s) i
  = if is_wildcard_char a then JS.Fin i else firstWildcard_from s (i + 1).
Proof.
  intros Hi. unfold firstWildcard_from, is_wildcard_char. simpl.
  destruct (indexOf_from_range "+" s (i + 1)) as [Hp | Hp];
    destruct (indexOf_from_range "*" s (i + 1)) as [Hs | Hs];
    destruct (Ascii.eqb a "+") eqn:E1; destruct (Ascii.eqb a "*") eqn:E2;
    simpl; try reflexivity.
  all: try (apply Ascii.eqb_eq in E1; apply Ascii.eqb_eq in E2; congruence).
  all: repeat match goal with
         | |- context [Z.gtb ?x ?y] =>
             rewrite (Z.gtb_ltb x y); destruct (Z.ltb_spec y x); simpl
         end; try reflexivity; try lia; f_equal; lia.
Qed.

Lemma firstWildcard_from_spec (s : string) (i : Z) :
  0 <= i ->
  (firstWildcard_from s i = JS.PosInf /\
   forall j c, String.get j s = Some c -> is_wildcard_char c = false) \/
  (exists k c,
      firstWildcard_from s i = JS.Fin (i + Z.of_nat k) /\
      String.get k s = Some c /\ is_wildcard_char c = true /\
      forall j d, (j < k)%nat -> String.get j s = Some d ->
                  is_wildcard_char d = false).
Proof.
  revert i. induction s as [| a s IH]; intros i Hi.
  - left. split; [reflexivity |]. intros j c. simpl. discriminate.
  - rewrite firstWildcard_from_cons by assumption.
    destruct (is_wildcard_char a) eqn:Ha.
    + right. exists 0%nat, a. simpl. repeat split; auto.
      * f_equal. lia.
      * intros j d Hj. lia.
    + destruct (IH (i + 1)) as [[H1 H2] | (k & c & H1 & H2 & H3 & H4)]; [lia | |].
      * left. split; [assumption |].
        intros [| j] c; simpl; [intros [= <-]; assumption | apply H2].
      * right. exists (S k), c. simpl. repeat split; auto.
        -- rewrite H1. f_equal. lia.
        -- intros [| j] d Hj; simpl; [intros [= <-]; assumption |].
           apply H4. lia.
Qed.

(** C9. Rule 1 takes the position of the first [+] or [*] anywhere in the
    pattern (a [*] that is not the last character included) and decides
    whenever the two positions differ.  The pattern [a*b], whose [*] is not
    final and which compiles to the exact literal [a*b], gets position 1: it
    ranks below the shorter literal [ab], exactly as [a+b] does. *)
Theorem firstWildcard_counts_interior_star :
  (forall p,
      (firstWildcard p = JS.PosInf /\
       forall j c, String.get j p = Some c -> is_wildcard_char c = false) \/
      (exists k c,
          firstWildcard p = JS.Fin (Z.of_nat k) /\
          String.get k p = Some c /\ is_wildcard_char c = true /\
          forall j d, (j < k)%nat -> String.get j p = Some d ->
                      is_wildcard_char d = false)) /\
  (forall localeCompare p q,
      JS.strict_neq (firstWildcard p) (firstWildcard q) = true ->
      comparePathPriority localeCompare p q
      = JS.sub (firstWildcard p) (firstWildcard q)) /\
  (buildRegexFromPath "a*b" = Some (Z3.mk_seq_to_re (Z3.mk_string "a*b")) /\
   firstWildcard "a*b" = JS.Fin 1 /\
   firstWildcard "a+b" = JS.Fin 1 /\
   forall localeCompare,
     comparePathPriority localeCompare "a*b" "ab" = JS.NegInf /\
     comparePathPriority localeCompare "a+b" "ab" = JS.NegInf).
Proof.
  split; [| split].
  - intros p. apply (firstWildcard_from_spec p 0). lia.
  - intros lc p q H. unfold comparePathPriority. now rewrite H.
  - repeat split.
Qed.

(** ** Sorting with the priority order *)

Lemma filter_Permutation {A : Type} (f : A -> bool) (l1 l2 : list A) :
  Permutation l1 l2 -> Permutation (filter f l1) (filter f l2).
Proof.
  induction 1 as [| x l1 l2 _ IH | x y l | l1 l2 l3 _ IH1 _ IH2]; simpl.
  - constructor.
  - destruct (f x); auto.
  - destruct (f x), (f y); auto. constructor.
  - now transitivity (filter f l2).
Qed.

Section SortFacts.

Variable localeCompare : string -> string -> Z.
Hypothesis collation : consistent_collation localeCompare.

Local Abbreviation compare := (comparePathPriority localeCompare).
Local Abbreviation le := (not_above localeCompare).

Lemma le_total (p q : string) : le p q \/ le q p.
Proof.
  unfold not_above. destruct (JS.gt0 (compare p q)) eqn:H; [right | now left].
  now apply (compare_asym _ collation).
Qed.

Lemma le_antisym (p q : string) : le p q -> le q p -> p = q.
Proof. apply (compare_zero_eq _ collation). Qed.

Lemma le_trans (p q r : string) : le p q -> le q r -> le p r.
Proof.
  unfold not_above. intros H1 H2.
  destruct (JS.gt0 (compare p r)) eqn:H3; [| reflexivity].
  destruct (JS.gt0 (compare r q)) eqn:H4.
  - rewrite <- H1. symmetry. eapply (compare_trans _ collation); eauto.
  - assert (q = r) by (apply (compare_zero_eq _ collation); assumption). subst r. congruence.
Qed.

Lemma insert_Permutation (x : string) (l : list string) :
  Permutation (JS.insert compare x l) (x :: l).
Proof.
  induction l as [| y l IH]; simpl; [reflexivity |].
  destruct (JS.gt0 (compare x y)); [| reflexivity].
  rewrite IH. apply perm_swap.
Qed.

Lemma sort_Permutation (l : list string) :
  Permutation (JS.sort compare l) l.
Proof.
  induction l as [| x l IH]; simpl; [reflexivity |].
  rewrite insert_Permutation. now constructor.
Qed.

Lemma insert_Sorted (x : string) (l : list string) :
  Sorted le l -> Sorted le (JS.insert compare x l).
Proof.
  induction l as [| y l IH]; simpl; intros Hs.
  - repeat constructor.
  - destruct (JS.gt0 (compare x y)) eqn:Hxy.
    + apply Sorted_inv in Hs as [Hs Hhd].
      constructor; [now apply IH |].
      assert (Hyx : le y x) by now apply (compare_asym _ collation).
      destruct l as [| z l]; simpl; [now constructor |].
      destruct (JS.gt0 (compare x z)); constructor; [| assumption].
      now apply HdRel_inv in Hhd.
    + constructor; [assumption |]. now constructor.
Qed.

Lemma sort_Sorted (l : list string) : Sorted le (JS.sort compare l).
Proof.
  induction l as [| x l IH]; simpl; [constructor | now apply insert_Sorted].
Qed.

Lemma sort_StronglySorted (l : list string) :
  StronglySorted le (JS.sort compare l).
Proof.
  apply Sorted_StronglySorted; [| apply sort_Sorted].
  intros p q r. apply le_trans.
Qed.

(** A list has one sorted arrangement only. *)
Lemma StronglySorted_unique (l1 l2 : list string) :
  Permutation l1 l2 -> StronglySorted le l1 -> StronglySorted le l2 -> l1 = l2.
Proof.
  revert l2. induction l1 as [| a l1 IH]; intros l2 Hp H1 H2.
  - now apply Permutation_nil in Hp.
  - destruct l2 as [| b l2];
      [apply Permutation_sym, Permutation_nil in Hp; discriminate |].
    apply StronglySorted_inv in H1 as [H1 Ha].
    apply StronglySorted_inv in H2 as [H2 Hb].
    rewrite Forall_forall in Ha, Hb.
    assert (a = b) as <-.
    { assert (Hin1 : In a (b :: l2))
        by (eapply Permutation_in; [exact Hp | now left]).
      assert (Hin2 : In b (a :: l1))
        by (eapply Permutation_in; [apply Permutation_sym; exact Hp | now left]).
      destruct Hin1 as [-> | Hin1]; [reflexivity |].
      destruct Hin2 as [-> | Hin2]; [reflexivity |].
      apply le_antisym; auto. }
    f_equal. apply IH; auto. eapply Permutation_cons_inv; eauto.
Qed.

Lemma sort_Permutation_eq (l1 l2 : list string) :
  Permutation l1 l2 -> JS.sort compare l1 = JS.sort compare l2.
Proof.
  intros Hp. apply StronglySorted_unique; try apply sort_StronglySorted.
  rewrite !sort_Permutation. assumption.
Qed.

End SortFacts.

(** ** The policy formula *)

Lemma get_In (rules : Policy) (p : string) (caps : list string) :
  wf_policy rules -> In (p, caps) rules -> get rules p = caps.
Proof.
  unfold wf_policy, Object_keys.
  induction rules as [| [k v] rules IH]; simpl; intros Hnd Hin; [easy |].
  apply NoDup_cons_iff in Hnd as [Hk Hnd].
  destruct Hin as [[= -> ->] | Hin].
  - now rewrite String.eqb_refl.
  - destruct (String.eqb_spec k p) as [-> | _]; [| now apply IH].
    exfalso. apply Hk. apply in_map_iff. now exists (p, caps).
Qed.

Lemma get_not_key (rules : Policy) (p : string) :
  ~ In p (Object_keys rules) -> get rules p = [].
Proof.
  unfold Object_keys.
  induction rules as [| [k v] rules IH]; simpl; intros Hn; [reflexivity |].
  destruct (String.eqb_spec k p) as [-> | _]; [tauto | apply IH; tauto].
Qed.

Lemma key_In (rules : Policy) (p : string) :
  In p (Object_keys rules) -> In (p, get rules p) rules.
Proof.
  unfold Object_keys.
  induction rules as [| [k v] rules IH]; simpl; [easy |].
  destruct (String.eqb_spec k p) as [-> | Hne]; [now left |].
  intros [H | H]; [contradiction | right; now apply IH].
Qed.

Lemma get_Permutation (rules1 rules2 : Policy) (p : string) :
  wf_policy rules1 -> Permutation rules1 rules2 -> get rules1 p = get rules2 p.
Proof.
  intros Hwf Hp.
  assert (Hk : Permutation (Object_keys rules1) (Object_keys rules2))
    by now apply Permutation_map.
  assert (Hwf2 : wf_policy rules2) by (eapply Permutation_NoDup; eauto).
  destruct (in_dec string_dec p (Object_keys rules1)) as [Hin | Hn].
  - apply key_In in Hin. symmetry. apply get_In; [assumption |].
    eapply Permutation_in; eauto.
  - rewrite (get_not_key rules1) by assumption.
    symmetry. apply get_not_key. intros H. apply Hn.
    eapply Permutation_in; [apply Permutation_sym |]; eauto.
Qed.

Lemma map_opt_None {A B : Type} (f : A -> option B) (l : list A) :
  map_opt f l = None <-> exists x, In x l /\ f x = None.
Proof.
  induction l as [| a l IH]; simpl.
  - split; [discriminate | intros (x & [] & _)].
  - destruct (f a) eqn:Ha.
    + destruct (map_opt f l) eqn:Hl.
      * split; [discriminate |].
        intros (x & [<- | Hin] & Hx); [congruence |].
        assert (Some l0 = None) by (apply IH; eauto). discriminate.
      * split; [| reflexivity]. intros _.
        destruct IH as [IH _]. destruct (IH eq_refl) as (x & Hin & Hx). eauto.
    + split; [| reflexivity]. intros _. exists a. auto.
Qed.

Section FormulaFacts.

Variable localeCompare : string -> string -> Z.
Variables pathVar capVar : Z3.seq_ast.

Lemma buildCapabilitiesMatch_eval (m : Z3.model) (caps : list string) :
  Z3.eval m (buildCapabilitiesMatch capVar caps) = grants m capVar caps.
Proof.
  unfold buildCapabilitiesMatch, grants.
  assert (H : existsb (Z3.eval m)
                (map (fun cap => Z3.mk_eq capVar (Z3.mk_string cap))
                   (filter (fun cap => negb (cap =? "deny")%string) caps))
              = existsb (fun cap => negb (cap =? "deny")%string
                                    && (Z3.eval_seq m capVar =? Z3.decode cap)%string)
                  caps).
  { induction caps as [| c caps IH]; simpl; [reflexivity |].
    destruct (negb (c =? "deny")%string); simpl; now rewrite IH. }
  destruct (map _ (filter _ caps)) as [| e es] eqn:E.
  - simpl in *. now rewrite <- H.
  - cbn [List.length]. rewrite Nat2Z.inj_succ.
    destruct (Z.eqb_spec (Z.succ (Z.of_nat (List.length es))) 0); [lia |].
    exact H.
Qed.

Lemma pathMatch_eval (m : Z3.model) (p : string) (e : Z3.bool_ast) :
  pathMatch pathVar p = Some e -> Z3.eval m e = path_matches m pathVar p.
Proof.
  unfold pathMatch, path_matches.
  destruct (buildRegexFromPath p); simpl; [intros [= <-]; reflexivity | discriminate].
Qed.

Lemma pathMatch_None (p : string) :
  pathMatch pathVar p = None <-> buildRegexFromPath p = None.
Proof.
  unfold pathMatch. destruct (buildRegexFromPath p); simpl; split; congruence.
Qed.

Lemma map_opt_pathMatch_eval (m : Z3.model) (l : list string)
    (es : list Z3.bool_ast) :
  map_opt (pathMatch pathVar) l = Some es ->
  existsb (Z3.eval m) es = existsb (path_matches m pathVar) l.
Proof.
  revert es. induction l as [| p l IH]; simpl; intros es.
  - intros [= <-]. reflexivity.
  - destruct (pathMatch pathVar p) eqn:Hp; [| discriminate].
    destruct (map_opt (pathMatch pathVar) l); [| discriminate].
    intros [= <-]. simpl. rewrite (pathMatch_eval m p b Hp). f_equal. now apply IH.
Qed.

Lemma isDenied_eval (m : Z3.model) (rules : Policy) (d : Z3.bool_ast) :
  isDenied pathVar rules = Some d ->
  Z3.eval m d = existsb (path_matches m pathVar) (denyPaths rules).
Proof.
  unfold isDenied.
  destruct (map_opt (pathMatch pathVar) (denyPaths rules)) eqn:E; simpl;
    [| discriminate].
  intros [= <-]. simpl. now apply map_opt_pathMatch_eval.
Qed.

Lemma isDenied_None (rules : Policy) :
  isDenied pathVar rules = None <->
  exists p, In p (denyPaths rules) /\ buildRegexFromPath p = None.
Proof.
  unfold isDenied.
  destruct (map_opt (pathMatch pathVar) (denyPaths rules)) eqn:E; simpl.
  - split; [discriminate |]. intros (p & Hin & Hp).
    assert (map_opt (pathMatch pathVar) (denyPaths rules) = None)
      by (apply map_opt_None; exists p; split; [assumption | now apply pathMatch_None]).
    congruence.
  - split; [| reflexivity]. intros _.
    apply map_opt_None in E as (p & Hin & Hp). exists p.
    split; [assumption | now apply pathMatch_None].
Qed.

(** The cascade built by the loop, for any list of paths. *)
Lemma allowStep_None (rules : Policy) (l : list string) :
  fold_left (allowStep pathVar capVar rules) l None = None.
Proof. induction l; simpl; auto. Qed.

Lemma cascade_snoc (rules : Policy) (l : list string) (p : string)
    (acc : option Z3.bool_ast) :
  fold_left (allowStep pathVar capVar rules) (l ++ [p])%list acc
  = allowStep pathVar capVar rules
      (fold_left (allowStep pathVar capVar rules) l acc) p.
Proof. now rewrite fold_left_app. Qed.

Lemma cascade_None (rules : Policy) (l : list string) (acc : Z3.bool_ast) :
  fold_left (allowStep pathVar capVar rules) l (Some acc) = None <->
  exists p, In p l /\ buildRegexFromPath p = None.
Proof.
  revert acc. induction l as [| p l IH]; intros acc; simpl.
  - split; [discriminate | intros (x & [] & _)].
  - destruct (pathMatch pathVar p) eqn:Hp.
    + rewrite IH. split; intros (x & Hin & Hx); [eauto |].
      destruct Hin as [<- | Hin]; [| eauto].
      apply pathMatch_None in Hx. congruence.
    + rewrite allowStep_None. split; [| reflexivity]. intros _.
      exists p. split; [now left | now apply pathMatch_None].
Qed.

Lemma cascade_eval (m : Z3.model) (rules : Policy) (l : list string)
    (acc e : Z3.bool_ast) :
  fold_left (allowStep pathVar capVar rules) l (Some acc) = Some e ->
  Z3.eval m e
  = match find (path_matches m pathVar) (rev l) with
    | Some p => grants m capVar (get rules p)
    | None => Z3.eval m acc
    end.
Proof.
  revert e. induction l as [| p l IH] using rev_ind; intros e.
  - simpl. now intros [= <-].
  - rewrite cascade_snoc, rev_app_distr. simpl.
    destruct (fold_left _ l (Some acc)) as [e' |] eqn:E; simpl; [| discriminate].
    destruct (pathMatch pathVar p) as [pm |] eqn:Hp; [| discriminate].
    intros [= <-]. simpl.
    rewrite (pathMatch_eval m p pm Hp), buildCapabilitiesMatch_eval.
    destruct (path_matches m pathVar p); [reflexivity | now apply IH].
Qed.

End FormulaFacts.

Lemma fold_left_ext_in {A B : Type} (f g : A -> B -> A) (l : list B) (a : A) :
  (forall acc x, In x l -> f acc x = g acc x) ->
  fold_left f l a = fold_left g l a.
Proof.
  revert a. induction l as [| x l IH]; intros a H; simpl; [reflexivity |].
  rewrite (H a x) by now left. apply IH. intros acc y Hy. apply H. now right.
Qed.

Lemma find_skip {A : Type} (f : A -> bool) (l r : list A) (p : A) :
  (forall x, In x l -> f x = false) -> f p = true ->
  find f (l ++ p :: r) = Some p.
Proof.
  induction l as [| x l IH]; simpl; intros Hl Hp.
  - now rewrite Hp.
  - rewrite (Hl x) by now left. apply IH; auto.
Qed.

Lemma StronglySorted_app_r {A : Type} (R : A -> A -> Prop) (l1 l2 : list A) :
  StronglySorted R (l1 ++ l2) -> StronglySorted R l2.
Proof.
  induction l1 as [| a l1 IH]; simpl; [auto |].
  intros H. apply StronglySorted_inv in H as [H _]. auto.
Qed.

Lemma StronglySorted_last {A : Type} (R : A -> A -> Prop) (l : list A) (x : A) :
  StronglySorted R (l ++ [x]) -> forall q, In q l -> R q x.
Proof.
  induction l as [| a l IH]; simpl; [easy |].
  intros H q [<- | Hq].
  - apply StronglySorted_inv in H as [_ H]. rewrite Forall_forall in H.
    apply H. apply in_or_app. right. now left.
  - apply StronglySorted_inv in H as [H _]. auto.
Qed.

(** C2. A deny rule whose pattern matches the path makes the policy formula
    false, whatever the capability and whatever allow rules match. *)
Theorem deny_rule_vetoes
    (localeCompare : string -> string -> Z) (pathVar capVar : Z3.seq_ast)
    (rules : Policy) (phi : Z3.bool_ast) (m : Z3.model)
    (p : string) (caps : list string) (re : Z3.re_ast) :
  wf_policy rules ->
  buildPolicyMatch localeCompare pathVar capVar rules = Some phi ->
  In (p, caps) rules ->
  In "deny" caps ->
  buildRegexFromPath p = Some re ->
  Z3.re_match re (Z3.eval_seq m pathVar) = true ->
  Z3.eval m phi = false.
Proof.
  intros Hwf Hphi Hin Hdeny Hre Hmatch.
  unfold buildPolicyMatch in Hphi.
  destruct (isDenied pathVar rules) as [denied |] eqn:Hd; [| discriminate].
  destruct (isAllowed localeCompare pathVar capVar rules) as [allowed |];
    [| discriminate].
  injection Hphi as <-. simpl.
  rewrite (isDenied_eval pathVar m rules denied Hd).
  assert (Hex : existsb (path_matches m pathVar) (denyPaths rules) = true).
  { apply existsb_exists. exists p. split.
    - unfold denyPaths. apply filter_In. split.
      + unfold Object_keys. apply in_map_iff. now exists (p, caps).
      + rewrite (get_In rules p caps Hwf Hin). unfold JS.includes.
        apply existsb_exists. exists "deny". split; [assumption | reflexivity].
    - unfold path_matches. now rewrite Hre. }
  rewrite Hex. simpl. apply andb_false_r.
Qed.

Lemma deny_rule_vetoes_witness :
  Z3.eval (model_of "secret/posts/admin" "read")
    (Z3.mk_and
       [Z3.mk_ite
          (Z3.mk_seq_in_re inputPath
             (Z3.mk_re_concat
                [Z3.mk_seq_to_re (Z3.mk_string "secret/posts/");
                 Z3.mk_re_star
                   (Z3.mk_re_union
                      (wildcardRanges
                       ++ [Z3.mk_seq_to_re (Z3.mk_string "/")])%list)]))
          (Z3.mk_or [Z3.mk_eq inputCap (Z3.mk_string "read")]) Z3.mk_false;
        Z3.mk_not
          (Z3.mk_or
             [Z3.mk_seq_in_re inputPath
                (Z3.mk_seq_to_re (Z3.mk_string "secret/posts/admin"))])])
  = false.
Proof.
  apply (deny_rule_vetoes codeUnitCompare inputPath inputCap
           [("secret/posts/*", ["read"]); ("secret/posts/admin", ["deny"])]
           _ _ "secret/posts/admin" ["deny"]
           (Z3.mk_seq_to_re (Z3.mk_string "secret/posts/admin"))).
  - repeat constructor; simpl; intuition discriminate.
  - reflexivity.
  - right. now left.
  - now left.
  - reflexivity.
  - reflexivity.
Defined.

(** The two sets of [buildPolicyMatch], read off the rules. *)
Lemma allowPaths_spec (rules : Policy) (p : string) :
  wf_policy rules ->
  (In p (allowPaths rules) <->
   exists caps, In (p, caps) rules /\ exists c, In c caps /\ c <> "deny").
Proof.
  intros Hwf. unfold allowPaths, JS.some. rewrite filter_In, existsb_exists. split.
  - intros [Hk (c & Hin & Hc)]. exists (get rules p). split; [now apply key_In |].
    exists c. split; [assumption |]. intros ->. discriminate.
  - intros (caps & Hin & c & Hc & Hne). rewrite (get_In rules p caps Hwf Hin).
    split.
    + unfold Object_keys. apply in_map_iff. now exists (p, caps).
    + exists c. split; [assumption |]. apply negb_true_iff.
      now apply String.eqb_neq.
Qed.


Lemma find_all_false {A : Type} (f : A -> bool) (l : list A) :
  (forall x, In x l -> f x = false) -> find f l = None.
Proof.
  induction l as [| a l IH]; simpl; intros H; [reflexivity |].
  rewrite (H a) by now left. apply IH. intros x Hx. apply H. now right.
Qed.

Section CascadeFacts.

Variable localeCompare : string -> string -> Z.
Hypothesis collation : consistent_collation localeCompare.
Variables pathVar capVar : Z3.seq_ast.

Local Abbreviation compare := (comparePathPriority localeCompare).
Local Abbreviation le := (not_above localeCompare).

Lemma le_ne_gt0 (p q : string) : le q p -> q <> p -> JS.gt0 (compare p q) = true.
Proof.
  intros Hle Hne. destruct (JS.gt0 (compare p q)) eqn:H; [reflexivity |].
  exfalso. apply Hne. now apply (compare_zero_eq _ collation).
Qed.

Lemma allowPaths_NoDup (rules : Policy) :
  wf_policy rules -> NoDup (allowPaths rules).
Proof. intros H. now apply NoDup_filter. Qed.

Lemma sortedAllowPaths_NoDup (rules : Policy) :
  wf_policy rules -> NoDup (sortedAllowPaths localeCompare rules).
Proof.
  intros H. eapply Permutation_NoDup; [| apply allowPaths_NoDup; eassumption].
  apply Permutation_sym, sort_Permutation.
Qed.

Lemma sortedAllowPaths_In (rules : Policy) (p : string) :
  In p (sortedAllowPaths localeCompare rules) <-> In p (allowPaths rules).
Proof.
  split; apply Permutation_in;
    [| apply Permutation_sym]; apply sort_Permutation.
Qed.

(** In a sorted list without repetition, scanning from the back finds the
    matching element that outranks every other matching element. *)
Lemma find_rev_highest (f : string -> bool) (l : list string) (p : string) :
  NoDup l -> StronglySorted le l -> In p l -> f p = true ->
  (forall q, In q l -> q <> p -> f q = true -> JS.gt0 (compare p q) = true) ->
  find f (rev l) = Some p.
Proof.
  intros Hnd Hs Hin Hp Hmax.
  apply in_split in Hin as (l1 & l2 & ->).
  rewrite rev_app_distr. simpl. rewrite <- app_assoc. simpl.
  apply find_skip; [| assumption].
  intros x Hx. apply in_rev in Hx.
  destruct (f x) eqn:Hfx; [| reflexivity]. exfalso.
  assert (Hne : x <> p).
  { intros ->. apply NoDup_remove_2 in Hnd. apply Hnd.
    apply in_or_app. now right. }
  assert (Hgt : JS.gt0 (compare p x) = true).
  { apply Hmax; auto. apply in_or_app. right. now right. }
  apply StronglySorted_app_r in Hs.
  apply StronglySorted_inv in Hs as [_ Hs]. rewrite Forall_forall in Hs.
  specialize (Hs x Hx). unfold not_above in Hs. congruence.
Qed.

(** C3. The allow part is an if-then-else cascade over the rules that list
    a capability other than [deny].  Its outermost test is the pattern of the
    rule among them that outranks all others, with the capability test of that
    rule's list; it is the constant [false] only when no rule lists such a
    capability.  For a path matched by some of these rules, the value of the
    allow part is the value of the capability test of the matching rule that
    outranks the other matching ones, whatever those list; for a path matched
    by none of them it is false. *)
Theorem isAllowed_highest_priority_governs
    (rules : Policy) (e : Z3.bool_ast) :
  wf_policy rules ->
  isAllowed localeCompare pathVar capVar rules = Some e ->
  ((e = Z3.mk_false /\
    forall p caps c, In (p, caps) rules -> In c caps -> c = "deny") \/
   (exists top caps re rest,
       e = Z3.mk_ite (Z3.mk_seq_in_re pathVar re)
             (buildCapabilitiesMatch capVar caps) rest /\
       In (top, caps) rules /\
       (exists c, In c caps /\ c <> "deny") /\
       buildRegexFromPath top = Some re /\
       forall q capsq c,
         In (q, capsq) rules -> In c capsq -> c <> "deny" -> q <> top ->
         JS.gt0 (compare top q) = true)) /\
  (forall m p caps,
      In (p, caps) rules ->
      (exists c, In c caps /\ c <> "deny") ->
      path_matches m pathVar p = true ->
      (forall q capsq c,
          In (q, capsq) rules -> In c capsq -> c <> "deny" -> q <> p ->
          path_matches m pathVar q = true ->
          JS.gt0 (compare p q) = true) ->
      Z3.eval m e = Z3.eval m (buildCapabilitiesMatch capVar caps)) /\
  (forall m,
      (forall p caps c,
          In (p, caps) rules -> In c caps -> c <> "deny" ->
          path_matches m pathVar p = false) ->
      Z3.eval m e = false).
Proof.
  intros Hwf He. unfold isAllowed in He. split; [| split].
  - destruct (sortedAllowPaths localeCompare rules) as [| x l] eqn:Hs
      using rev_ind.
    + left. simpl in He. injection He as <-. split; [reflexivity |].
      intros p caps c Hin Hc.
      destruct (String.eqb_spec c "deny") as [-> | Hne]; [reflexivity |].
      exfalso.
      assert (Hp : In p (sortedAllowPaths localeCompare rules)).
      { apply sortedAllowPaths_In. apply allowPaths_spec; eauto. }
      rewrite Hs in Hp. exact Hp.
    + clear IHl. right. rewrite cascade_snoc in He.
      destruct (fold_left _ l (Some Z3.mk_false)) as [rest |]; [| discriminate].
      simpl in He. unfold pathMatch in He.
      destruct (buildRegexFromPath x) as [re |] eqn:Hre; [| discriminate].
      simpl in He. injection He as <-.
      assert (Hx : In x (allowPaths rules)).
      { apply sortedAllowPaths_In. rewrite Hs. apply in_or_app. right. now left. }
      apply (allowPaths_spec rules x Hwf) in Hx as (caps & Hin & Hc).
      exists x, caps, re, rest. rewrite (get_In rules x caps Hwf Hin).
      repeat split; auto.
      intros q capsq c Hq Hcq Hcne Hne. apply le_ne_gt0; [| assumption].
      assert (Hqa : In q (sortedAllowPaths localeCompare rules)).
      { apply sortedAllowPaths_In. apply allowPaths_spec; eauto. }
      rewrite Hs in Hqa.
      apply in_app_or in Hqa as [Hqa | [-> | []]]; [| contradiction].
      apply (StronglySorted_last le l x); [| assumption].
      rewrite <- Hs. now apply sort_StronglySorted.
  - intros m p caps Hin Hc Hp Hmax.
    rewrite (cascade_eval pathVar capVar m rules _ _ _ He).
    rewrite (find_rev_highest (path_matches m pathVar)
               (sortedAllowPaths localeCompare rules) p); auto.
    + rewrite (get_In rules p caps Hwf Hin).
      symmetry. apply buildCapabilitiesMatch_eval.
    + now apply sortedAllowPaths_NoDup.
    + now apply sort_StronglySorted.
    + apply sortedAllowPaths_In. apply allowPaths_spec; eauto.
    + intros q Hq Hne Hm. apply sortedAllowPaths_In in Hq.
      apply (allowPaths_spec rules q Hwf) in Hq as (capsq & Hqin & c & Hcq & Hcne).
      now apply (Hmax q capsq c).
  - intros m Hnone.
    rewrite (cascade_eval pathVar capVar m rules _ _ _ He).
    rewrite find_all_false; [reflexivity |].
    intros q Hq. apply in_rev in Hq. apply sortedAllowPaths_In in Hq.
    apply (allowPaths_spec rules q Hwf) in Hq as (capsq & Hqin & c & Hcq & Hcne).
    now apply (Hnone q capsq c).
Qed.

End CascadeFacts.

Lemma isAllowed_highest_priority_governs_witness :
  exists e,
    isAllowed codeUnitCompare inputPath inputCap demo_policy = Some e /\
    (((e = Z3.mk_false /\
       forall p caps c, In (p, caps) demo_policy -> In c caps -> c = "deny") \/
      (exists top caps re rest,
          e = Z3.mk_ite (Z3.mk_seq_in_re inputPath re)
                (buildCapabilitiesMatch inputCap caps) rest /\
          In (top, caps) demo_policy /\
          (exists c, In c caps /\ c <> "deny") /\
          buildRegexFromPath top = Some re /\
          forall q capsq c,
            In (q, capsq) demo_policy -> In c capsq -> c <> "deny" -> q <> top ->
            JS.gt0 (comparePathPriority codeUnitCompare top q) = true)) /\
     (forall m p caps,
         In (p, caps) demo_policy ->
         (exists c, In c caps /\ c <> "deny") ->
         path_matches m inputPath p = true ->
         (forall q capsq c,
             In (q, capsq) demo_policy -> In c capsq -> c <> "deny" -> q <> p ->
             path_matches m inputPath q = true ->
             JS.gt0 (comparePathPriority codeUnitCompare p q) = true) ->
         Z3.eval m e = Z3.eval m (buildCapabilitiesMatch inputCap caps)) /\
     (forall m,
         (forall p caps c,
             In (p, caps) demo_policy -> In c caps -> c <> "deny" ->
             path_matches m inputPath p = false) ->
         Z3.eval m e = false)).
Proof.
  eexists. split; [reflexivity |].
  apply (isAllowed_highest_priority_governs codeUnitCompare
           codeUnitCompare_consistent inputPath inputCap demo_policy).
  - repeat constructor; simpl; intuition discriminate.
  - reflexivity.
Defined.

(** In the policy of the last demo request the rule for [secret/posts/ad]
    outranks the rule for [secret/posts/*]: on the path [secret/posts/ad] the
    allow part grants [read], which the outranking rule lists, and not
    [write], which only the shadowed rule lists. *)
Lemma demo_policy_shadowing :
  exists e,
    isAllowed codeUnitCompare inputPath inputCap demo_policy = Some e /\
    path_matches (model_of "secret/posts/ad" "write") inputPath "secret/posts/*"
    = true /\
    Z3.eval (model_of "secret/posts/ad" "read") e = true /\
    Z3.eval (model_of "secret/posts/ad" "write") e = false.
Proof.
  eexists. split; [reflexivity |]. vm_compute. auto.
Qed.

(** ** Independence of the enumeration order *)

Lemma existsb_Permutation {A : Type} (f : A -> bool) (l1 l2 : list A) :
  Permutation l1 l2 -> existsb f l1 = existsb f l2.
Proof.
  intros Hp.
  destruct (existsb f l1) eqn:E1; destruct (existsb f l2) eqn:E2; try reflexivity.
  - apply existsb_exists in E1 as (x & Hin & Hx).
    assert (existsb f l2 = true)
      by (apply existsb_exists; exists x; split;
          [eapply Permutation_in; eauto | assumption]).
    congruence.
  - apply existsb_exists in E2 as (x & Hin & Hx).
    assert (existsb f l1 = true)
      by (apply existsb_exists; exists x; split;
          [eapply Permutation_in; [apply Permutation_sym |]; eauto | assumption]).
    congruence.
Qed.

Section OrderFacts.

Variable localeCompare : string -> string -> Z.
Hypothesis collation : consistent_collation localeCompare.
Variables pathVar capVar : Z3.seq_ast.

Lemma denyPaths_Permutation (rules1 rules2 : Policy) :
  wf_policy rules1 -> Permutation rules1 rules2 ->
  Permutation (denyPaths rules1) (denyPaths rules2).
Proof.
  intros Hwf Hp. unfold denyPaths.
  rewrite (filter_ext _ (fun p => JS.includes (get rules2 p) "deny")).
  - apply filter_Permutation. now apply Permutation_map.
  - intros p. now rewrite (get_Permutation rules1 rules2 p).
Qed.

Lemma allowPaths_Permutation (rules1 rules2 : Policy) :
  wf_policy rules1 -> Permutation rules1 rules2 ->
  Permutation (allowPaths rules1) (allowPaths rules2).
Proof.
  intros Hwf Hp. unfold allowPaths.
  rewrite (filter_ext _
             (fun p => JS.some (fun c => negb (c =? "deny")%string) (get rules2 p))).
  - apply filter_Permutation. now apply Permutation_map.
  - intros p. now rewrite (get_Permutation rules1 rules2 p).
Qed.

Lemma isAllowed_Permutation (rules1 rules2 : Policy) :
  wf_policy rules1 -> Permutation rules1 rules2 ->
  isAllowed localeCompare pathVar capVar rules1
  = isAllowed localeCompare pathVar capVar rules2.
Proof.
  intros Hwf Hp. unfold isAllowed, sortedAllowPaths.
  rewrite (sort_Permutation_eq _ collation _ _
             (allowPaths_Permutation rules1 rules2 Hwf Hp)).
  apply fold_left_ext_in. intros acc x _. unfold allowStep.
  now rewrite (get_Permutation rules1 rules2 x).
Qed.

Lemma isDenied_None_Permutation (rules1 rules2 : Policy) :
  wf_policy rules1 -> Permutation rules1 rules2 ->
  isDenied pathVar rules1 = None -> isDenied pathVar rules2 = None.
Proof.
  intros Hwf Hp H. apply isDenied_None in H as (p & Hin & Hre).
  apply isDenied_None. exists p. split; [| assumption].
  eapply Permutation_in; [| exact Hin]. now apply denyPaths_Permutation.
Qed.

(** C8, as the code has it.  Two enumeration orders of one mapping give the
    same allow cascade, the same deny patterns up to their order, and
    formulas that are either both without value or true in the same models. *)
Theorem buildPolicyMatch_enumeration_order (rules1 rules2 : Policy) :
  wf_policy rules1 -> Permutation rules1 rules2 ->
  isAllowed localeCompare pathVar capVar rules1
  = isAllowed localeCompare pathVar capVar rules2 /\
  Permutation (denyPaths rules1) (denyPaths rules2) /\
  (buildPolicyMatch localeCompare pathVar capVar rules1 = None <->
   buildPolicyMatch localeCompare pathVar capVar rules2 = None) /\
  (forall phi1 phi2 m,
      buildPolicyMatch localeCompare pathVar capVar rules1 = Some phi1 ->
      buildPolicyMatch localeCompare pathVar capVar rules2 = Some phi2 ->
      Z3.eval m phi1 = Z3.eval m phi2).
Proof.
  intros Hwf Hp.
  assert (Hwf2 : wf_policy rules2).
  { unfold wf_policy. eapply Permutation_NoDup; [| exact Hwf].
    now apply Permutation_map. }
  pose proof (isAllowed_Permutation rules1 rules2 Hwf Hp) as Ha.
  pose proof (denyPaths_Permutation rules1 rules2 Hwf Hp) as Hd.
  pose proof (isDenied_None_Permutation rules1 rules2 Hwf Hp) as Hn1.
  pose proof (isDenied_None_Permutation rules2 rules1 Hwf2
                (Permutation_sym Hp)) as Hn2.
  repeat split; auto; unfold buildPolicyMatch; rewrite <- Ha.
  - destruct (isDenied pathVar rules1) eqn:E1;
      destruct (isDenied pathVar rules2) eqn:E2;
      destruct (isAllowed localeCompare pathVar capVar rules1);
      try reflexivity; try discriminate.
    first [now specialize (Hn1 eq_refl) | now specialize (Hn2 eq_refl)].
  - destruct (isDenied pathVar rules1) eqn:E1;
      destruct (isDenied pathVar rules2) eqn:E2;
      destruct (isAllowed localeCompare pathVar capVar rules1);
      try reflexivity; try discriminate.
    first [now specialize (Hn1 eq_refl) | now specialize (Hn2 eq_refl)].
  - intros phi1 phi2 m.
    destruct (isDenied pathVar rules1) as [d1 |] eqn:E1; [| discriminate].
    destruct (isDenied pathVar rules2) as [d2 |] eqn:E2; [| discriminate].
    destruct (isAllowed localeCompare pathVar capVar rules1); [| discriminate].
    intros [= <-] [= <-]. simpl.
    rewrite (isDenied_eval pathVar m rules1 d1 E1).
    rewrite (isDenied_eval pathVar m rules2 d2 E2).
    now rewrite (existsb_Permutation _ _ _ Hd).
Qed.

End OrderFacts.

Lemma two_denies_wf : wf_policy two_denies.
Proof. repeat constructor; simpl; intuition discriminate. Qed.

Lemma two_denies_Permutation : Permutation two_denies two_denies_swapped.
Proof. apply perm_swap. Qed.

Lemma mixed_policy_wf : wf_policy mixed_policy.
Proof. repeat constructor; simpl; intuition discriminate. Qed.

Lemma mixed_policy_Permutation : Permutation mixed_policy mixed_policy_reversed.
Proof. apply Permutation_rev. Qed.

Lemma buildPolicyMatch_enumeration_order_witness :
  isAllowed codeUnitCompare inputPath inputCap mixed_policy
  = isAllowed codeUnitCompare inputPath inputCap mixed_policy_reversed /\
  Permutation (denyPaths mixed_policy) (denyPaths mixed_policy_reversed) /\
  (buildPolicyMatch codeUnitCompare inputPath inputCap mixed_policy = None <->
   buildPolicyMatch codeUnitCompare inputPath inputCap mixed_policy_reversed
   = None) /\
  (forall phi1 phi2 m,
      buildPolicyMatch codeUnitCompare inputPath inputCap mixed_policy = Some phi1 ->
      buildPolicyMatch codeUnitCompare inputPath inputCap mixed_policy_reversed
      = Some phi2 ->
      Z3.eval m phi1 = Z3.eval m phi2).
Proof.
  exact (buildPolicyMatch_enumeration_order codeUnitCompare
           codeUnitCompare_consistent inputPath inputCap
           mixed_policy mixed_policy_reversed
           mixed_policy_wf mixed_policy_Permutation).
Defined.

(** The two enumeration orders of [mixed_policy] give one allow cascade of
    three tests, the test of [secret/posts/ad] outermost, and two deny
    disjunctions that list their two operands in opposite orders. *)
Lemma mixed_policy_formulas :
  (exists re caps rest1 re2 caps2 rest2 re3 caps3,
      isAllowed codeUnitCompare inputPath inputCap mixed_policy_reversed
      = Some (Z3.mk_ite (Z3.mk_seq_in_re inputPath re) caps rest1) /\
      buildRegexFromPath "secret/posts/ad" = Some re /\
      rest1 = Z3.mk_ite (Z3.mk_seq_in_re inputPath re2) caps2 rest2 /\
      rest2 = Z3.mk_ite (Z3.mk_seq_in_re inputPath re3) caps3 Z3.mk_false) /\
  denyPaths mixed_policy = ["secret/posts/admin"; "secret/users/+"] /\
  denyPaths mixed_policy_reversed = ["secret/users/+"; "secret/posts/admin"] /\
  buildPolicyMatch codeUnitCompare inputPath inputCap mixed_policy
  <> buildPolicyMatch codeUnitCompare inputPath inputCap mixed_policy_reversed.
Proof.
  split; [| split; [| split]].
  - do 8 eexists. repeat split; reflexivity.
  - reflexivity.
  - reflexivity.
  - vm_compute. discriminate.
Qed.

(** Against C8 as stated.  The formulas built for the two enumeration orders
    of [two_denies] differ: the deny disjunction lists its operands in key
    order. *)
Lemma buildPolicyMatch_differs_across_orders :
  consistent_collation codeUnitCompare /\
  wf_policy two_denies /\
  Permutation two_denies two_denies_swapped /\
  buildPolicyMatch codeUnitCompare inputPath inputCap two_denies
  <> buildPolicyMatch codeUnitCompare inputPath inputCap two_denies_swapped.
Proof.
  split; [exact codeUnitCompare_consistent |].
  split; [exact two_denies_wf |].
  split; [exact two_denies_Permutation |].
  vm_compute. discriminate.
Qed.

(** ** Rules with an empty capability list *)

Local Open Scope list_scope.

Lemma get_middle_other (l1 l2 : Policy) (p q : string) (v : list string) :
  q <> p -> get (l1 ++ (p, v) :: l2) q = get (l1 ++ l2) q.
Proof.
  intros Hne. induction l1 as [| [k w] l1 IH]; simpl.
  - destruct (String.eqb_spec p q); [congruence | reflexivity].
  - now rewrite IH.
Qed.

Lemma get_middle_same (l1 l2 : Policy) (p : string) (v : list string) :
  ~ In p (Object_keys l1) -> get (l1 ++ (p, v) :: l2) p = v.
Proof.
  induction l1 as [| [k w] l1 IH]; simpl; intros Hn.
  - now rewrite String.eqb_refl.
  - destruct (String.eqb_spec k p); [tauto | apply IH; tauto].
Qed.

Lemma wf_middle (l1 l2 : Policy) (p : string) (v : list string) :
  wf_policy (l1 ++ (p, v) :: l2) ->
  ~ In p (Object_keys l1) /\ ~ In p (Object_keys (l1 ++ l2)).
Proof.
  unfold wf_policy, Object_keys. rewrite !map_app. simpl. intros H.
  apply NoDup_remove_2 in H. split; [| assumption].
  intros Hin. apply H. apply in_or_app. now left.
Qed.

Lemma filter_keys_drop (F : list string -> bool) (l1 l2 : Policy) (p : string) :
  wf_policy (l1 ++ (p, []) :: l2) -> F [] = false ->
  filter (fun q => F (get (l1 ++ (p, []) :: l2) q))
         (Object_keys (l1 ++ (p, []) :: l2))
  = filter (fun q => F (get (l1 ++ l2) q)) (Object_keys (l1 ++ l2)).
Proof.
  intros Hwf HF. destruct (wf_middle _ _ _ _ Hwf) as [Hn1 Hn2].
  unfold Object_keys in *. rewrite !map_app in *. simpl.
  rewrite !filter_app. simpl.
  rewrite (get_middle_same l1 l2 p [] Hn1), HF.
  f_equal; apply filter_ext_in; intros q Hq;
    rewrite get_middle_other; auto; intros ->; apply Hn2, in_or_app; auto.
Qed.

Lemma drop_empty_capability_rule
    (localeCompare : string -> string -> Z) (pathVar capVar : Z3.seq_ast)
    (l1 l2 : Policy) (p : string) :
  wf_policy (l1 ++ (p, []) :: l2) ->
  ~ In p (denyPaths (l1 ++ (p, []) :: l2)) /\
  ~ In p (allowPaths (l1 ++ (p, []) :: l2)) /\
  buildPolicyMatch localeCompare pathVar capVar (l1 ++ (p, []) :: l2)
  = buildPolicyMatch localeCompare pathVar capVar (l1 ++ l2).
Proof.
  intros Hwf. destruct (wf_middle _ _ _ _ Hwf) as [Hn1 Hn2].
  assert (Hd : denyPaths (l1 ++ (p, []) :: l2) = denyPaths (l1 ++ l2)).
  { unfold denyPaths.
    apply (filter_keys_drop (fun caps => JS.includes caps "deny")); auto. }
  assert (Ha : allowPaths (l1 ++ (p, []) :: l2) = allowPaths (l1 ++ l2)).
  { unfold allowPaths.
    apply (filter_keys_drop
             (JS.some (fun c => negb (c =? "deny")%string))); auto. }
  assert (Hnot : forall l, (forall q, In q l -> In q (Object_keys (l1 ++ l2))) ->
                           ~ In p l).
  { intros l Hl Hin. apply Hn2. auto. }
  split; [| split].
  - rewrite Hd. apply Hnot. intros q Hq. now apply filter_In in Hq.
  - rewrite Ha. apply Hnot. intros q Hq. now apply filter_In in Hq.
  - unfold buildPolicyMatch, isDenied, isAllowed, sortedAllowPaths.
    rewrite Hd, Ha.
    rewrite (fold_left_ext_in
               (allowStep pathVar capVar (l1 ++ (p, []) :: l2))
               (allowStep pathVar capVar (l1 ++ l2))); [reflexivity |].
    intros acc x Hx. unfold allowStep. rewrite get_middle_other; [reflexivity |].
    intros ->. apply Hn2.
    assert (Hin : In p (allowPaths (l1 ++ l2))).
    { eapply Permutation_in; [apply sort_Permutation | exact Hx]. }
    now apply filter_In in Hin.
Qed.

(** C10. A rule with an empty capability list is in neither the deny set nor
    the allow set, and the formula is the one built without the rule. *)
Theorem empty_capability_rule_ignored
    (localeCompare : string -> string -> Z) (pathVar capVar : Z3.seq_ast)
    (l1 l2 : Policy) (p : string) :
  wf_policy (l1 ++ (p, []) :: l2) ->
  ~ In p (denyPaths (l1 ++ (p, []) :: l2)) /\
  ~ In p (allowPaths (l1 ++ (p, []) :: l2)) /\
  buildPolicyMatch localeCompare pathVar capVar (l1 ++ (p, []) :: l2)
  = buildPolicyMatch localeCompare pathVar capVar (l1 ++ l2).
Proof. apply drop_empty_capability_rule. Qed.

Lemma empty_capability_rule_ignored_witness :
  ~ In "secret/tmp" (denyPaths (scenario6_current ++ ("secret/tmp", []) :: demo_policy)) /\
  ~ In "secret/tmp" (allowPaths (scenario6_current ++ ("secret/tmp", []) :: demo_policy)) /\
  buildPolicyMatch codeUnitCompare inputPath inputCap
    (scenario6_current ++ ("secret/tmp", []) :: demo_policy)
  = buildPolicyMatch codeUnitCompare inputPath inputCap
      (scenario6_current ++ demo_policy).
Proof.
  apply (empty_capability_rule_ignored codeUnitCompare inputPath inputCap
           scenario6_current demo_policy "secret/tmp").
  repeat constructor; simpl; intuition discriminate.
Defined.

(** ** Regular-expression membership: the matcher decides the language *)

Local Open Scope string_scope.

Lemma append_nil_r (s : string) : s ++ "" = s.
Proof. induction s; simpl; congruence. Qed.

Lemma append_assoc (s1 s2 s3 : string) : (s1 ++ s2) ++ s3 = s1 ++ (s2 ++ s3).
Proof. induction s1; simpl; congruence. Qed.

Lemma append_eq_nil (s1 s2 : string) : s1 ++ s2 = "" -> s1 = "" /\ s2 = "".
Proof. destruct s1; simpl; [auto | discriminate]. Qed.

(** Induction on regular expressions, with the hypothesis available for every
    operand of a union or a concatenation. *)
Lemma re_ast_induction (P : Z3.re_ast -> Prop) :
  (forall lo hi, P (Z3.mk_re_range lo hi)) ->
  (forall s, P (Z3.mk_seq_to_re s)) ->
  (forall args, Forall P args -> P (Z3.mk_re_union args)) ->
  (forall r, P r -> P (Z3.mk_re_star r)) ->
  (forall r, P r -> P (Z3.mk_re_plus r)) ->
  (forall args, Forall P args -> P (Z3.mk_re_concat args)) ->
  forall r, P r.
Proof.
  intros Hrange Hlit Hunion Hstar Hplus Hconcat.
  fix IH 1. intros [lo hi | s | args | r | r | args].
  - apply Hrange.
  - apply Hlit.
  - apply Hunion. induction args as [| a args IHargs]; constructor; auto.
  - apply Hstar, IH.
  - apply Hplus, IH.
  - apply Hconcat. induction args as [| a args IHargs]; constructor; auto.
Qed.

Lemma in_re_none (s : string) : ~ Z3.in_re Z3.re_none s.
Proof. intros H. inversion H; subst. contradiction. Qed.

Lemma in_re_eps (s : string) : Z3.in_re Z3.re_eps s <-> s = "".
Proof.
  split.
  - intros H. now inversion H.
  - intros ->. constructor.
Qed.

Lemma in_re_concat_inv (r : Z3.re_ast) (rs : list Z3.re_ast) (s : string) :
  Z3.in_re (Z3.mk_re_concat (r :: rs)) s <->
  exists s1 s2, s = s1 ++ s2 /\ Z3.in_re r s1 /\ Z3.in_re (Z3.mk_re_concat rs) s2.
Proof.
  split.
  - intros H. inversion H; subst. eauto.
  - intros (s1 & s2 & -> & H1 & H2). now constructor.
Qed.

Lemma in_re_concat_nil_inv (s : string) :
  Z3.in_re (Z3.mk_re_concat []) s <-> s = "".
Proof.
  split.
  - intros H. now inversion H.
  - intros ->. constructor.
Qed.

Lemma in_re_union_inv (args : list Z3.re_ast) (s : string) :
  Z3.in_re (Z3.mk_re_union args) s <-> exists r, In r args /\ Z3.in_re r s.
Proof.
  split.
  - intros H. inversion H; subst. eauto.
  - intros (r & Hin & Hr). econstructor; eauto.
Qed.

Lemma in_re_plus_inv (r : Z3.re_ast) (s : string) :
  Z3.in_re (Z3.mk_re_plus r) s <->
  exists s1 s2, s = s1 ++ s2 /\ Z3.in_re r s1 /\ Z3.in_re (Z3.mk_re_star r) s2.
Proof.
  split.
  - intros H. inversion H; subst. eauto.
  - intros (s1 & s2 & -> & H1 & H2). now constructor.
Qed.

(** A non-empty word of a star starts with a non-empty word of the body. *)
Lemma in_re_star_cons (r : Z3.re_ast) (c : ascii) (s : string) :
  Z3.in_re (Z3.mk_re_star r) (String c s) ->
  exists s1 s2, s = s1 ++ s2 /\ Z3.in_re r (String c s1) /\
                Z3.in_re (Z3.mk_re_star r) s2.
Proof.
  intros H. remember (Z3.mk_re_star r) as r' eqn:Er.
  remember (String c s) as w eqn:Ew.
  induction H as [| | | | r0 s1 s2 H1 _ H2 IH2 | | |]; try discriminate.
  injection Er as ->.
  destruct s1 as [| a s1]; simpl in Ew.
  - apply IH2; auto.
  - injection Ew as -> <-. eauto.
Qed.

Lemma nullable_spec (r : Z3.re_ast) : Z3.nullable r = true <-> Z3.in_re r "".
Proof.
  induction r as [lo hi | s | args IH | r IH | r IH | args IH]
    using re_ast_induction; simpl.
  - split; [discriminate | intros H; inversion H].
  - destruct s as [name | value].
    + split; [discriminate | intros H; inversion H].
    + rewrite String.eqb_eq. split.
      * intros ->. constructor.
      * intros H. now inversion H.
  - rewrite existsb_exists, in_re_union_inv. rewrite Forall_forall in IH.
    split; intros (x & Hin & Hx); exists x; split; auto; now apply IH.
  - split; [intros _; constructor | reflexivity].
  - rewrite IH. split.
    + intros H. apply (Z3.in_re_plus r "" "" H). constructor.
    + intros H. apply in_re_plus_inv in H as (s1 & s2 & Hs & H1 & _).
      symmetry in Hs. apply append_eq_nil in Hs as [-> _]. assumption.
  - induction args as [| a args IHargs]; simpl.
    + split; [intros _; constructor | reflexivity].
    + apply Forall_cons_iff in IH as [Ha IH]. specialize (IHargs IH).
      rewrite andb_true_iff, Ha, IHargs, in_re_concat_inv. split.
      * intros [H1 H2]. exists "", "". auto.
      * intros (s1 & s2 & Hs & H1 & H2). symmetry in Hs.
        apply append_eq_nil in Hs as [-> ->]. auto.
Qed.

Lemma deriv_concat_cons (c : ascii) (r : Z3.re_ast) (rs : list Z3.re_ast) :
  Z3.deriv c (Z3.mk_re_concat (r :: rs))
  = Z3.mk_re_union
      [Z3.mk_re_concat (Z3.deriv c r :: rs);
       if Z3.nullable r then Z3.deriv c (Z3.mk_re_concat rs) else Z3.re_none].
Proof. reflexivity. Qed.

Lemma deriv_spec (r : Z3.re_ast) :
  forall c s, Z3.in_re (Z3.deriv c r) s <-> Z3.in_re r (String c s).
Proof.
  induction r as [lo hi | lit | args IH | r IH | r IH | args IH]
    using re_ast_induction; intros c s.
  - simpl. destruct (Z3.in_range lo hi c) eqn:E.
    + rewrite in_re_eps. split.
      * intros ->. now constructor.
      * intros H. now inversion H.
    + split; [intros H; now apply in_re_none in H |].
      intros H. inversion H; subst. congruence.
  - destruct lit as [name | [| a lit]]; simpl.
    + split; [intros H; now apply in_re_none in H | intros H; inversion H].
    + split; [intros H; now apply in_re_none in H | intros H; inversion H].
    + destruct (Ascii.eqb_spec a c) as [-> | Hne].
      * split; intros H; inversion H; subst; constructor.
      * split; [intros H; now apply in_re_none in H |].
        intros H. inversion H; subst. congruence.
  - simpl. rewrite !in_re_union_inv. rewrite Forall_forall in IH. split.
    + intros (x & Hin & Hx). apply in_map_iff in Hin as (y & <- & Hy).
      exists y. split; [assumption |]. now apply IH.
    + intros (y & Hy & Hx). exists (Z3.deriv c y). split.
      * now apply in_map.
      * now apply IH.
  - simpl. rewrite in_re_concat_inv. split.
    + intros (s1 & s2 & -> & H1 & H2).
      apply in_re_concat_inv in H2 as (s3 & s4 & -> & H3 & H4).
      apply in_re_concat_nil_inv in H4 as ->. rewrite append_nil_r.
      apply IH in H1. apply (Z3.in_re_star_app r (String c s1) s3 H1 H3).
    + intros H. apply in_re_star_cons in H as (s1 & s2 & -> & H1 & H2).
      exists s1, s2. split; [reflexivity |]. split; [now apply IH |].
      rewrite <- (append_nil_r s2). constructor; [assumption | constructor].
  - simpl. rewrite in_re_concat_inv. split.
    + intros (s1 & s2 & -> & H1 & H2).
      apply in_re_concat_inv in H2 as (s3 & s4 & -> & H3 & H4).
      apply in_re_concat_nil_inv in H4 as ->. rewrite append_nil_r.
      apply IH in H1. apply (Z3.in_re_plus r (String c s1) s3 H1 H3).
    + intros H. apply in_re_plus_inv in H as (s1 & s2 & Es & H1 & H2).
      symmetry in Es.
      assert (Hsplit : exists t1 t2, s = t1 ++ t2 /\ Z3.in_re r (String c t1) /\
                                     Z3.in_re (Z3.mk_re_star r) t2).
      { destruct s1 as [| a s1]; simpl in Es.
        - subst s2. now apply in_re_star_cons.
        - injection Es as -> <-. eauto. }
      destruct Hsplit as (t1 & t2 & -> & Ht1 & Ht2).
      exists t1, t2. split; [reflexivity |]. split; [now apply IH |].
      rewrite <- (append_nil_r t2). constructor; [assumption | constructor].
  - revert s. induction args as [| a args IHargs]; intros s.
    + simpl. split; [intros H; now apply in_re_none in H | intros H; inversion H].
    + apply Forall_cons_iff in IH as [Ha IH]. specialize (IHargs IH).
      rewrite deriv_concat_cons, in_re_union_inv. split.
      * intros (x & [<- | [<- | []]] & Hx).
        -- apply in_re_concat_inv in Hx as (s1 & s2 & -> & H1 & H2).
           apply Ha in H1.
           apply (Z3.in_re_concat_cons a args (String c s1) s2 H1 H2).
        -- destruct (Z3.nullable a) eqn:En; [| now apply in_re_none in Hx].
           apply nullable_spec in En. apply IHargs in Hx.
           apply (Z3.in_re_concat_cons a args "" (String c s) En Hx).
      * intros H. apply in_re_concat_inv in H as (s1 & s2 & Hs & H1 & H2).
        destruct s1 as [| b s1]; simpl in Hs.
        -- subst s2. apply nullable_spec in H1. rewrite H1.
           eexists. split; [right; left; reflexivity |]. now apply IHargs.
        -- injection Hs as <- ->.
           eexists. split; [left; reflexivity |].
           apply in_re_concat_inv. exists s1, s2.
           split; [reflexivity |]. split; [now apply Ha | assumption].
Qed.

(** The matcher decides membership in the language. *)
Lemma re_match_spec (r : Z3.re_ast) (s : string) :
  Z3.re_match r s = true <-> Z3.in_re r s.
Proof.
  revert r. induction s as [| c s IH]; intros r; simpl.
  - apply nullable_spec.
  - rewrite IH. apply deriv_spec.
Qed.

(** ** What Z3 reads from a string *)

Lemma escape_char_no_backslash (c : ascii) (rest : string) :
  Ascii.eqb c Z3.backslash = false -> Z3.escape_char (String c rest) = None.
Proof.
  intros H. unfold Z3.escape_char. destruct rest; [reflexivity |].
  now rewrite H.
Qed.

Lemma decode_from_no_backslash (fuel : nat) (s : string) :
  has_char Z3.backslash s = false -> Z3.decode_from fuel s = s.
Proof.
  revert s. induction fuel as [| fuel IH]; intros [| c rest] H; try reflexivity.
  cbn [has_char] in H. apply orb_false_iff in H as [Hc Hrest].
  cbn [Z3.decode_from]. rewrite (escape_char_no_backslash c rest Hc).
  now rewrite IH.
Qed.

Lemma decode_no_backslash (s : string) :
  no_backslash s = true -> Z3.decode s = s.
Proof.
  unfold no_backslash, Z3.decode. intros H. apply negb_true_iff in H.
  now apply decode_from_no_backslash.
Qed.

Lemma mk_string_no_backslash (s : string) :
  no_backslash s = true -> Z3.mk_string s = Z3.string_value s.
Proof. intros H. unfold Z3.mk_string. now rewrite decode_no_backslash. Qed.

Lemma plain_no_backslash (s : string) : plain s = true -> no_backslash s = true.
Proof.
  unfold plain, no_backslash. intros H. apply negb_true_iff.
  induction s as [| a s IH]; [reflexivity |].
  cbn [all_chars] in H. apply andb_true_iff in H as [Ha Hs].
  cbn [has_char]. rewrite (IH Hs), orb_false_r.
  unfold is_plain_char in Ha. apply andb_true_iff in Ha as [_ Ha].
  now apply negb_true_iff in Ha.
Qed.


Lemma mk_string_plain (s : string) :
  plain s = true -> Z3.mk_string s = Z3.string_value s.
Proof. intros H. now apply mk_string_no_backslash, plain_no_backslash. Qed.

(** Escapes are read by Z3, not by the checker.  The pattern [\u{61}]
    compiles to the literal [a] and the pattern [\u{2b}], in which [split]
    finds no wildcard, to the literal [+]; the capability [\u{64}eny] is not
    the string [deny] for [filter], and is compared as [deny]. *)
Lemma escapes_are_decoded :
  buildRegexFromPath "\u{61}" = Some (Z3.mk_seq_to_re (Z3.string_value "a")) /\
  buildRegexFromPath "\u{2b}" = Some (Z3.mk_seq_to_re (Z3.string_value "+")) /\
  buildRegexFromPath "\u0061/b"
  = Some (Z3.mk_seq_to_re (Z3.string_value "a/b")) /\
  buildCapabilitiesMatch inputCap ["\u{64}eny"]
  = Z3.mk_or [Z3.mk_eq inputCap (Z3.string_value "deny")].
Proof. repeat split. Qed.

(** So the pattern [\u{61}] matches the path [a] and not the path that is
    written like the pattern, the pattern [\u{2b}] matches the path [+], and
    the capability list [[\u{64}eny]] grants [deny]. *)
Lemma escapes_in_a_policy :
  path_matches (model_of "a" "read") inputPath "\u{61}" = true /\
  path_matches (model_of "\u{61}" "read") inputPath "\u{61}" = false /\
  path_matches (model_of "+" "read") inputPath "\u{2b}" = true /\
  Z3.eval (model_of "a" "deny") (buildCapabilitiesMatch inputCap ["\u{64}eny"])
  = true.
Proof. repeat split. Qed.

(** ** Which patterns compile *)

Lemma rePart_nil (part : string) : rePart part = [] <-> part = "".
Proof.
  unfold rePart.
  destruct (String.eqb_spec part "*") as [-> | H1]; [split; discriminate |].
  destruct (String.eqb_spec part "+") as [-> | H2]; [split; discriminate |].
  destruct (String.eqb_spec part "") as [-> | H3]; simpl; split; congruence.
Qed.

Lemma append_not_nil (s : string) (a : ascii) : s ++ String a "" <> "".
Proof. destruct s; discriminate. Qed.

Lemma split_from_parts (s acc : string) :
  s <> "" \/ acc <> "" -> flat_map rePart (JS.split_from s acc) <> [].
Proof.
  revert acc. induction s as [| a s IH]; intros acc H; simpl.
  - destruct H as [H | H]; [congruence |].
    rewrite app_nil_r. now rewrite rePart_nil.
  - destruct (Ascii.eqb a "+").
    + simpl. intros E. apply app_eq_nil in E as [_ E]. discriminate.
    + destruct (Ascii.eqb a "*" && (s =? "")%string).
      * simpl. intros E. apply app_eq_nil in E as [_ E]. discriminate.
      * apply IH. right. apply append_not_nil.
Qed.

Lemma buildRegexFromPath_None (p : string) :
  buildRegexFromPath p = None <-> p = "".
Proof.
  split.
  - intros H. destruct p as [| a p]; [reflexivity |]. exfalso.
    assert (Hne : flat_map rePart (JS.split (String a p)) <> [])
      by (apply split_from_parts; left; discriminate).
    unfold buildRegexFromPath in H.
    destruct (flat_map rePart (JS.split (String a p))) as [| x [| y l]];
      [congruence | discriminate |].
    destruct (Z.ltb_spec (Z.of_nat (List.length (x :: y :: l))) 2) as [Hl | _];
      [simpl in Hl; lia | discriminate].
  - intros ->. reflexivity.
Qed.



Lemma buildPolicyMatch_defined
    (localeCompare : string -> string -> Z) (pathVar capVar : Z3.seq_ast)
    (rules : Policy) :
  ~ In "" (Object_keys rules) ->
  exists phi, buildPolicyMatch localeCompare pathVar capVar rules = Some phi.
Proof.
  intros Hne. unfold buildPolicyMatch.
  destruct (isDenied pathVar rules) as [d |] eqn:Hd.
  - destruct (isAllowed localeCompare pathVar capVar rules) as [a |] eqn:Ha;
      [eauto |].
    exfalso. apply cascade_None in Ha as (p & Hin & Hp).
    apply buildRegexFromPath_None in Hp as ->. apply Hne.
    assert (H : In "" (allowPaths rules))
      by (eapply Permutation_in; [apply sort_Permutation | exact Hin]).
    now apply filter_In in H.
  - exfalso. apply isDenied_None in Hd as (p & Hin & Hp).
    apply buildRegexFromPath_None in Hp as ->. apply Hne.
    now apply filter_In in Hin.
Qed.

(** ** The languages of the two wildcards *)

Lemma in_re_prefix (lit : string) (r : Z3.re_ast) (s : string) :
  Z3.in_re (Z3.mk_re_concat [Z3.mk_seq_to_re (Z3.string_value lit); r]) s <->
  exists rest, s = lit ++ rest /\ Z3.in_re r rest.
Proof.
  rewrite in_re_concat_inv. split.
  - intros (s1 & s2 & -> & H1 & H2).
    apply in_re_concat_inv in H2 as (s3 & s4 & -> & H3 & H4).
    apply in_re_concat_nil_inv in H4 as ->. rewrite append_nil_r.
    inversion H1; subst. eauto.
  - intros (rest & -> & Hr). exists lit, rest.
    split; [reflexivity |]. split; [constructor |].
    rewrite <- (append_nil_r rest). constructor; [assumption | constructor].
Qed.

Lemma literal_char_in_re (c : ascii) :
  literal_char c = true <->
  Z3.in_re (Z3.mk_re_union wildcardRanges) (String c "").
Proof.
  unfold literal_char. rewrite existsb_exists, in_re_union_inv.
  split; intros (r & Hin & Hr); exists r; split; auto; now apply re_match_spec.
Qed.

(** None of the literals of the character classes holds an escape: each is
    its own value. *)
Lemma wildcardRanges_values :
  wildcardRanges
  = [ Z3.mk_re_range (Z3.string_value "a") (Z3.string_value "z");
      Z3.mk_re_range (Z3.string_value "A") (Z3.string_value "Z");
      Z3.mk_re_range (Z3.string_value "0") (Z3.string_value "9");
      Z3.mk_seq_to_re (Z3.string_value "-");
      Z3.mk_seq_to_re (Z3.string_value "_");
      Z3.mk_seq_to_re (Z3.string_value ".") ].
Proof. reflexivity. Qed.

(** Every word of a wildcard class is one character. *)
Lemma wildcardRanges_single (w : string) :
  Z3.in_re (Z3.mk_re_union wildcardRanges) w ->
  exists c, w = String c "" /\ literal_char c = true.
Proof.
  intros H. assert (Hw : exists c, w = String c "").
  { apply in_re_union_inv in H as (r & Hin & Hr).
    rewrite wildcardRanges_values in Hin. simpl in Hin.
    repeat (destruct Hin as [<- | Hin]; [inversion Hr; subst; eauto |]).
    contradiction. }
  destruct Hw as (c & ->). exists c. split; [reflexivity |].
  now apply literal_char_in_re.
Qed.

Lemma path_class_single (w : string) :
  Z3.in_re
    (Z3.mk_re_union
       (wildcardRanges ++ [Z3.mk_seq_to_re (Z3.mk_string "/")])%list) w ->
  exists c, w = String c "" /\ path_char c = true.
Proof.
  intros H. apply in_re_union_inv in H as (r & Hin & Hr).
  apply in_app_or in Hin as [Hin | [<- | []]].
  - destruct (wildcardRanges_single w) as (c & -> & Hc).
    + apply in_re_union_inv. eauto.
    + exists c. split; [reflexivity |]. unfold path_char. now rewrite Hc.
  - change (Z3.mk_string "/") with (Z3.string_value "/") in Hr.
    inversion Hr; subst. exists "/"%char. split; reflexivity.
Qed.

Lemma star_path_chars (rest : string) :
  Z3.in_re
    (Z3.mk_re_star
       (Z3.mk_re_union
          (wildcardRanges ++ [Z3.mk_seq_to_re (Z3.mk_string "/")])%list))
    rest ->
  all_chars path_char rest = true.
Proof.
  intros H.
  remember (Z3.mk_re_star _) as r eqn:Er.
  induction H as [| | | | r0 s1 s2 H1 _ H2 IH2 | | |]; try discriminate.
  - reflexivity.
  - injection Er as ->.
    apply path_class_single in H1 as (c & -> & Hc). simpl.
    rewrite Hc. simpl. now apply IH2.
Qed.

Lemma star_literal_chars (rest : string) :
  all_chars literal_char rest = true ->
  Z3.in_re (Z3.mk_re_star (Z3.mk_re_union wildcardRanges)) rest.
Proof.
  induction rest as [| c rest IH]; simpl; intros H; [constructor |].
  apply andb_true_iff in H as [Hc Hr].
  apply (Z3.in_re_star_app _ (String c "") rest); [| now apply IH].
  now apply literal_char_in_re.
Qed.

Lemma plus_literal_chars (rest : string) :
  rest <> "" -> all_chars literal_char rest = true ->
  Z3.in_re (Z3.mk_re_plus (Z3.mk_re_union wildcardRanges)) rest.
Proof.
  destruct rest as [| c rest]; [congruence |]. simpl. intros _ H.
  apply andb_true_iff in H as [Hc Hr].
  apply (Z3.in_re_plus _ (String c "") rest).
  - now apply literal_char_in_re.
  - now apply star_literal_chars.
Qed.

Lemma path_chars_without_slash (rest : string) :
  all_chars path_char rest = true -> has_char "/" rest = false ->
  all_chars literal_char rest = true.
Proof.
  induction rest as [| c rest IH]; simpl; [reflexivity |].
  intros H1 H2. apply andb_true_iff in H1 as [Hc Hr].
  apply orb_false_iff in H2 as [Hs Hrest].
  unfold path_char in Hc. rewrite Hs, orb_false_r in Hc.
  rewrite Hc. simpl. now apply IH.
Qed.

(** ** The escalation check *)

Lemma escalationQuery_eval (m : Z3.model) (currentPolicy newPolicy : Z3.bool_ast) :
  Z3.eval m (escalationQuery currentPolicy newPolicy)
  = negb (Z3.eval m currentPolicy) && Z3.eval m newPolicy.
Proof. simpl. now rewrite andb_true_r. Qed.

Lemma escalationQuery_self_unsat (m : Z3.model) (phi : Z3.bool_ast) :
  Z3.eval m (escalationQuery phi phi) = false.
Proof. rewrite escalationQuery_eval. now destruct (Z3.eval m phi). Qed.

(** C4. Checking a policy against itself: the query has no model, and the
    check returns the no-escalation result with a null witness. *)
Theorem self_check_reports_no_escalation
    (localeCompare : string -> string -> Z)
    (solver_check : Z3.bool_ast -> Z3.Z3_lbool)
    (solver_get_model : Z3.bool_ast -> Z3.model)
    (ast_to_string : Z3.bool_ast -> string)
    (rules : Policy) :
  ~ In "" (Object_keys rules) ->
  (forall q, policyQuery localeCompare rules rules = Some q ->
             solver_sound_on solver_check solver_get_model q) ->
  exists phi calls,
    buildPolicyMatch localeCompare inputPath inputCap rules = Some phi /\
    (forall m, Z3.eval m (escalationQuery phi phi) = false) /\
    checkPrivilegeEscalation localeCompare solver_check solver_get_model
      ast_to_string rules rules
    = Some ({| result := false;
               path := None;
               capability := None;
               z3 := {| currentPolicyAst := ast_to_string phi;
                        newPolicyAst := ast_to_string phi |} |},
            calls).
Proof.
  intros Hne Hsound.
  destruct (buildPolicyMatch_defined localeCompare inputPath inputCap rules Hne)
    as (phi & Hphi).
  specialize (Hsound (escalationQuery phi phi)).
  unfold policyQuery in Hsound. rewrite Hphi in Hsound.
  destruct (Hsound eq_refl) as [Hsat _].
  unfold checkPrivilegeEscalation. rewrite Hphi.
  destruct (solver_check (escalationQuery phi phi)) eqn:Hv.
  - exists phi. eexists. split; [reflexivity |].
    split; [intros m; apply escalationQuery_self_unsat | reflexivity].
  - exists phi. eexists. split; [reflexivity |].
    split; [intros m; apply escalationQuery_self_unsat | reflexivity].
  - specialize (Hsat eq_refl). rewrite escalationQuery_self_unsat in Hsat.
    discriminate.
Qed.

Lemma self_check_reports_no_escalation_witness :
  exists phi calls,
    buildPolicyMatch codeUnitCompare inputPath inputCap demo_policy = Some phi /\
    (forall m, Z3.eval m (escalationQuery phi phi) = false) /\
    checkPrivilegeEscalation codeUnitCompare (verdict Z3.Z3_L_FALSE)
      (fixed_model (model_of "" "")) no_rendering demo_policy demo_policy
    = Some ({| result := false;
               path := None;
               capability := None;
               z3 := {| currentPolicyAst := no_rendering phi;
                        newPolicyAst := no_rendering phi |} |},
            calls).
Proof.
  apply (self_check_reports_no_escalation codeUnitCompare
           (verdict Z3.Z3_L_FALSE) (fixed_model (model_of "" "")) no_rendering
           demo_policy).
  - simpl. intuition discriminate.
  - intros q Hq. injection Hq as <-. split; [discriminate |].
    intros _ m. apply escalationQuery_self_unsat.
Defined.

(** C1, on the code.  A solver that answers [unknown] gets the very result of
    a solver that answers [unsat]; on scenario 6, whose query has the model
    [path = secret/app/], [cap = read], the check then reports no
    escalation. *)
Theorem unknown_verdict_reported_as_no_escalation :
  (forall localeCompare solver_get_model ast_to_string currentRules newRules,
      checkPrivilegeEscalation localeCompare (verdict Z3.Z3_L_UNDEF)
        solver_get_model ast_to_string currentRules newRules
      = checkPrivilegeEscalation localeCompare (verdict Z3.Z3_L_FALSE)
          solver_get_model ast_to_string currentRules newRules) /\
  (exists q,
      policyQuery codeUnitCompare scenario6_current scenario6_new = Some q /\
      Z3.eval (model_of "secret/app/" "read") q = true /\
      exists calls,
        checkPrivilegeEscalation codeUnitCompare (verdict Z3.Z3_L_UNDEF)
          (fixed_model (model_of "" "")) no_rendering
          scenario6_current scenario6_new
        = Some ({| result := false;
                   path := None;
                   capability := None;
                   z3 := {| currentPolicyAst := ""; newPolicyAst := "" |} |},
                calls)).
Proof.
  split.
  - intros lc gm ats cur new. unfold checkPrivilegeEscalation.
    destruct (buildPolicyMatch lc inputPath inputCap cur);
      destruct (buildPolicyMatch lc inputPath inputCap new); reflexivity.
  - eexists. split; [reflexivity |]. split; [vm_compute; reflexivity |].
    eexists. reflexivity.
Qed.




Lemma scenario6_current_formula (localeCompare : string -> string -> Z) :
  buildPolicyMatch localeCompare inputPath inputCap scenario6_current
  = Some (read_on secret_app_plus).
Proof. reflexivity. Qed.

Lemma scenario6_new_formula (localeCompare : string -> string -> Z) :
  buildPolicyMatch localeCompare inputPath inputCap scenario6_new
  = Some (read_on secret_app_star).
Proof. reflexivity. Qed.

(** C5, as the code has it.  On scenario 6 a sound solver that decides the
    query makes the check report an escalation for [read] on a path made of
    [secret/app/] and a remainder over the path alphabet that is empty or
    holds a [/]; the class of [+] excludes [/], the class of the final [*]
    includes it. *)
Theorem scenario6_reports_escalation
    (localeCompare : string -> string -> Z)
    (solver_check : Z3.bool_ast -> Z3.Z3_lbool)
    (solver_get_model : Z3.bool_ast -> Z3.model)
    (ast_to_string : Z3.bool_ast -> string)
    (q : Z3.bool_ast) :
  policyQuery localeCompare scenario6_current scenario6_new = Some q ->
  solver_sound_on solver_check solver_get_model q ->
  solver_check q <> Z3.Z3_L_UNDEF ->
  (exists examplePath rest diag calls,
      checkPrivilegeEscalation localeCompare solver_check solver_get_model
        ast_to_string scenario6_current scenario6_new
      = Some ({| result := true;
                 path := Some examplePath;
                 capability := Some "read";
                 z3 := diag |},
              calls) /\
      examplePath = "secret/app/" ++ rest /\
      all_chars path_char rest = true /\
      (rest = "" \/ has_char "/" rest = true)) /\
  literal_char "/" = false /\
  path_char "/" = true.
Proof.
  intros Hq [Hsat Hunsat] Hdec. split; [| split; reflexivity].
  unfold policyQuery in Hq.
  rewrite (scenario6_current_formula localeCompare) in Hq.
  rewrite (scenario6_new_formula localeCompare) in Hq.
  injection Hq as <-.
  unfold checkPrivilegeEscalation.
  rewrite (scenario6_current_formula localeCompare).
  rewrite (scenario6_new_formula localeCompare).
  cbv beta iota zeta.
  set (qq := escalationQuery (read_on secret_app_plus) (read_on secret_app_star))
    in *.
  destruct (solver_check qq) eqn:Hv; [| congruence |].
  - specialize (Hunsat eq_refl (model_of "secret/app/" "read")).
    vm_compute in Hunsat. discriminate.
  - specialize (Hsat eq_refl). clear Hunsat Hdec Hv.
    set (m := solver_get_model qq) in *.
    unfold qq in Hsat. rewrite escalationQuery_eval in Hsat.
    unfold read_on in Hsat.
    change (Z3.mk_string "read") with (Z3.string_value "read") in Hsat.
    cbn [Z3.eval forallb existsb Z3.eval_seq inputPath inputCap negb] in Hsat.
    rewrite !andb_true_r, !orb_false_r in Hsat.
    destruct (Z3.re_match secret_app_star (m "path")) eqn:Hstar;
      [| rewrite andb_false_r in Hsat; discriminate].
    destruct (String.eqb_spec (m "cap") "read") as [Hcap | Hcap];
      [| rewrite andb_false_r in Hsat; discriminate].
    rewrite andb_true_r in Hsat.
    destruct (Z3.re_match secret_app_plus (m "path")) eqn:Hplus; [discriminate |].
    apply re_match_spec in Hstar. unfold secret_app_star in Hstar.
    change (Z3.mk_string "secret/app/") with (Z3.string_value "secret/app/")
      in Hstar.
    apply in_re_prefix in Hstar as (rest & Hpath & Hrest).
    apply star_path_chars in Hrest.
    exists (m "path"), rest. eexists _, _.
    split; [rewrite Hcap; reflexivity |].
    split; [assumption |]. split; [assumption |].
    destruct rest as [| c rest]; [now left | right].
    destruct (has_char "/" (String c rest)) eqn:Hslash; [reflexivity |].
    exfalso.
    assert (Hin : Z3.in_re secret_app_plus (m "path")).
    { unfold secret_app_plus.
      change (Z3.mk_string "secret/app/") with (Z3.string_value "secret/app/").
      apply in_re_prefix. exists (String c rest). split; [assumption |].
      apply plus_literal_chars; [discriminate |].
      now apply path_chars_without_slash. }
    apply re_match_spec in Hin. congruence.
Qed.

Lemma scenario6_reports_escalation_witness :
  (exists examplePath rest diag calls,
      checkPrivilegeEscalation codeUnitCompare (verdict Z3.Z3_L_TRUE)
        (fixed_model (model_of "secret/app/x/y" "read")) no_rendering
        scenario6_current scenario6_new
      = Some ({| result := true;
                 path := Some examplePath;
                 capability := Some "read";
                 z3 := diag |},
              calls) /\
      examplePath = "secret/app/" ++ rest /\
      all_chars path_char rest = true /\
      (rest = "" \/ has_char "/" rest = true)) /\
  literal_char "/" = false /\
  path_char "/" = true.
Proof.
  apply (scenario6_reports_escalation codeUnitCompare (verdict Z3.Z3_L_TRUE)
           (fixed_model (model_of "secret/app/x/y" "read")) no_rendering
           (escalationQuery (read_on secret_app_plus) (read_on secret_app_star))).
  - reflexivity.
  - split; [intros _; vm_compute; reflexivity | discriminate].
  - discriminate.
Defined.

(** Against C5 as stated.  On scenario 6 the path [secret/app/] with [read]
    is a model of the query: a sound solver may return it, and the check then
    reports a witness path with no [/] after [secret/app/]. *)
Lemma scenario6_witness_without_slash :
  exists q calls,
    policyQuery codeUnitCompare scenario6_current scenario6_new = Some q /\
    solver_sound_on (verdict Z3.Z3_L_TRUE)
      (fixed_model (model_of "secret/app/" "read")) q /\
    checkPrivilegeEscalation codeUnitCompare (verdict Z3.Z3_L_TRUE)
      (fixed_model (model_of "secret/app/" "read")) no_rendering
      scenario6_current scenario6_new
    = Some ({| result := true;
               path := Some "secret/app/";
               capability := Some "read";
               z3 := {| currentPolicyAst := ""; newPolicyAst := "" |} |},
            calls) /\
    slash_after_prefix "secret/app/" = false.
Proof.
  eexists _, _. split; [reflexivity |]. split; [| split; reflexivity].
  split; [intros _; vm_compute; reflexivity | discriminate].
Qed.

(** * Further properties of the checker *)

(** ** How a pattern is cut into pieces *)

Lemma concat_cons_empty_sep (x : string) (l : list string) :
  String.concat "" (x :: l) = x ++ String.concat "" l.
Proof.
  destruct l as [| y l]; simpl; [now rewrite append_nil_r | reflexivity].
Qed.

Lemma split_from_rejoin (s acc : string) :
  String.concat "" (JS.split_from s acc) = acc ++ s.
Proof.
  revert acc. induction s as [| a s IH]; intros acc.
  - simpl. now rewrite append_nil_r.
  - cbn [JS.split_from].
    destruct (Ascii.eqb_spec a "+") as [-> | _].
    + rewrite !concat_cons_empty_sep, IH. reflexivity.
    + destruct (Ascii.eqb_spec a "*") as [-> | _]; simpl.
      * destruct (String.eqb_spec s "") as [-> | _].
        -- rewrite !concat_cons_empty_sep. reflexivity.
        -- rewrite IH, append_assoc. reflexivity.
      * rewrite IH, append_assoc. reflexivity.
Qed.

Lemma has_char_append (c : ascii) (s1 s2 : string) :
  has_char c (s1 ++ s2) = has_char c s1 || has_char c s2.
Proof.
  induction s1 as [| a s1 IH]; simpl; [reflexivity |].
  now rewrite IH, orb_assoc.
Qed.

Lemma split_from_plus_pieces (s acc : string) :
  has_char "+" acc = false ->
  Forall (fun piece => piece = "+" \/ has_char "+" piece = false)
         (JS.split_from s acc).
Proof.
  revert acc. induction s as [| a s IH]; intros acc Hacc; cbn [JS.split_from].
  - constructor; [now right | constructor].
  - destruct (Ascii.eqb a "+") eqn:Ea.
    + constructor; [now right |]. constructor; [now left |]. now apply IH.
    + destruct (Ascii.eqb a "*" && (s =? "")%string).
      * constructor; [now right |]. constructor; [now right |]. now apply IH.
      * apply IH. rewrite has_char_append, Hacc. simpl. now rewrite Ea.
Qed.

(** X1. The pieces [split] cuts a pattern into, joined again, are the
    pattern; and a [+] never stays inside a piece: every piece is [+] itself
    or holds none. *)
Theorem split_pieces_rejoin (p : string) :
  String.concat "" (JS.split p) = p /\
  Forall (fun piece => piece = "+" \/ has_char "+" piece = false) (JS.split p).
Proof.
  split.
  - apply (split_from_rejoin p "").
  - now apply split_from_plus_pieces.
Qed.


Lemma re_match_literal (lit s : string) :
  Z3.re_match (Z3.mk_seq_to_re (Z3.string_value lit)) s = true <-> s = lit.
Proof.
  rewrite re_match_spec. split.
  - intros H. now inversion H.
  - intros ->. constructor.
Qed.



Lemma rePart_not_concat (piece : string) (r : Z3.re_ast) :
  In r (rePart piece) -> forall args, r <> Z3.mk_re_concat args.
Proof.
  unfold rePart. intros Hin args.
  destruct (piece =? "*")%string; [destruct Hin as [<- | []]; discriminate |].
  destruct (piece =? "+")%string; [destruct Hin as [<- | []]; discriminate |].
  destruct (negb (piece =? "")%string); [| contradiction].
  destruct Hin as [<- | []]; discriminate.
Qed.

(** X3. [buildRegexFromPath] has no value exactly on the empty pattern, and it
    never wraps fewer than two operands in a concatenation. *)
Theorem buildRegexFromPath_undefined_iff_empty (p : string) :
  (buildRegexFromPath p = None <-> p = "") /\
  (forall args, buildRegexFromPath p = Some (Z3.mk_re_concat args) ->
                (2 <= List.length args)%nat).
Proof.
  split; [apply buildRegexFromPath_None |].
  intros args. unfold buildRegexFromPath.
  remember (flat_map rePart (JS.split p)) as reParts eqn:E.
  destruct (Z.ltb_spec (Z.of_nat (List.length reParts)) 2) as [Hlt | Hge].
  - destruct reParts as [| r [| r' l]]; simpl in *; try discriminate; try lia.
    intros [= ->]. exfalso.
    assert (Hin : In (Z3.mk_re_concat args) (flat_map rePart (JS.split p)))
      by (rewrite <- E; now left).
    apply in_flat_map in Hin as (piece & _ & Hin).
    now apply (rePart_not_concat piece _ Hin args).
  - intros [= <-]. lia.
Qed.

(** ** What the compiled wildcards match *)

Lemma in_re_concat_single (r : Z3.re_ast) (s : string) :
  Z3.in_re (Z3.mk_re_concat [r]) s <-> Z3.in_re r s.
Proof.
  rewrite in_re_concat_inv. split.
  - intros (s1 & s2 & -> & H1 & H2). apply in_re_concat_nil_inv in H2 as ->.
    now rewrite append_nil_r.
  - intros H. exists s, "". rewrite append_nil_r.
    split; [reflexivity |]. split; [assumption | constructor].
Qed.


(** The value of [buildRegexFromPath] has the language of the concatenation of
    all parts, whether it is wrapped or not. *)
Lemma buildRegexFromPath_language (p : string) (re : Z3.re_ast) :
  buildRegexFromPath p = Some re ->
  forall s, Z3.re_match re s = true <->
            Z3.in_re (Z3.mk_re_concat (flat_map rePart (JS.split p))) s.
Proof.
  unfold buildRegexFromPath. intros H s. rewrite re_match_spec.
  destruct (flat_map rePart (JS.split p)) as [| r [| r' l]] eqn:E.
  - discriminate.
  - simpl in H. injection H as <-. now rewrite in_re_concat_single.
  - destruct (Z.ltb_spec (Z.of_nat (List.length (r :: r' :: l))) 2) as [Hlt | _];
      [simpl in Hlt; lia |].
    now injection H as <-.
Qed.


Lemma no_wildcard_append (s1 s2 : string) :
  no_wildcard (s1 ++ s2) = no_wildcard s1 && no_wildcard s2.
Proof.
  unfold no_wildcard. induction s1 as [| a s1 IH]; simpl; [reflexivity |].
  now rewrite IH, andb_assoc.
Qed.





Lemma star_literal_chars_inv (rest : string) :
  Z3.in_re (Z3.mk_re_star (Z3.mk_re_union wildcardRanges)) rest ->
  all_chars literal_char rest = true.
Proof.
  intros H.
  remember (Z3.mk_re_star _) as r eqn:Er.
  induction H as [| | | | r0 s1 s2 H1 _ H2 IH2 | | |]; try discriminate.
  - reflexivity.
  - injection Er as ->.
    apply wildcardRanges_single in H1 as (c & -> & Hc). simpl.
    rewrite Hc. simpl. now apply IH2.
Qed.

Lemma plus_wildcard_language (seg : string) :
  Z3.in_re plus_wildcard seg <->
  seg <> "" /\ all_chars literal_char seg = true.
Proof.
  split.
  - intros H. apply in_re_plus_inv in H as (s1 & s2 & -> & H1 & H2).
    apply wildcardRanges_single in H1 as (c & -> & Hc).
    apply star_literal_chars_inv in H2. simpl. rewrite Hc, H2.
    split; [discriminate | reflexivity].
  - intros [Hne H]. now apply plus_literal_chars.
Qed.








(** ** More on the priority order *)

Lemma firstWildcard_from_PosInf (s : string) (i : Z) :
  0 <= i -> (firstWildcard_from s i = JS.PosInf <-> no_wildcard s = true).
Proof.
  revert i. induction s as [| a s IH]; intros i Hi.
  - split; reflexivity.
  - rewrite firstWildcard_from_cons by assumption.
    unfold no_wildcard. simpl. destruct (is_wildcard_char a); simpl.
    + split; discriminate.
    + apply IH. lia.
Qed.

Lemma firstWildcard_PosInf (p : string) :
  firstWildcard p = JS.PosInf <-> no_wildcard p = true.
Proof. apply (firstWildcard_from_PosInf p 0). lia. Qed.

(** X7. [comparePathPriority] never yields [NaN]: the subtraction of the two
    first-wildcard positions is not reached when both are [Infinity].  It
    yields [Infinity] exactly when the first pattern has no [+] and no [*]
    and the second has one, and [-Infinity] exactly the other way round: a
    wildcard-free pattern outranks every pattern with a wildcard. *)
Theorem comparePathPriority_infinite
    (localeCompare : string -> string -> Z) (p q : string) :
  comparePathPriority localeCompare p q <> JS.NaN /\
  (comparePathPriority localeCompare p q = JS.PosInf <->
   no_wildcard p = true /\ no_wildcard q = false) /\
  (comparePathPriority localeCompare p q = JS.NegInf <->
   no_wildcard p = false /\ no_wildcard q = true).
Proof.
  pose proof (firstWildcard_PosInf p) as Hp.
  pose proof (firstWildcard_PosInf q) as Hq.
  unfold comparePathPriority.
  destruct (firstWildcard_shape p) as [Ep | [a Ep]];
    destruct (firstWildcard_shape q) as [Eq | [b Eq]];
    rewrite Ep, Eq in *; simpl.
  all: destruct (no_wildcard p) eqn:Hp';
    try (destruct Hp as [Hp _]; specialize (Hp eq_refl); discriminate);
    try (destruct Hp as [_ Hp]; specialize (Hp eq_refl); discriminate).
  all: destruct (no_wildcard q) eqn:Hq';
    try (destruct Hq as [Hq _]; specialize (Hq eq_refl); discriminate);
    try (destruct Hq as [_ Hq]; specialize (Hq eq_refl); discriminate).
  all: repeat match goal with
         | |- context [if ?c then _ else _] => destruct c
         end.
  all: repeat split; try discriminate; intros [H1 H2]; discriminate.
Qed.

(** X8. [sortedAllowPaths] holds the allow patterns once each, from the
    lowest priority to the highest: whatever stands later in the array
    outranks whatever stands earlier. *)
Theorem sortedAllowPaths_ascending
    (localeCompare : string -> string -> Z) (rules : Policy) :
  consistent_collation localeCompare ->
  wf_policy rules ->
  Permutation (sortedAllowPaths localeCompare rules) (allowPaths rules) /\
  NoDup (sortedAllowPaths localeCompare rules) /\
  forall l1 p l2 q l3,
    sortedAllowPaths localeCompare rules = (l1 ++ p :: l2 ++ q :: l3)%list ->
    JS.gt0 (comparePathPriority localeCompare q p) = true.
Proof.
  intros Hc Hwf.
  split; [apply sort_Permutation |].
  split; [now apply sortedAllowPaths_NoDup |].
  intros l1 p l2 q l3 E.
  pose proof (sort_StronglySorted localeCompare Hc (allowPaths rules)) as Hs.
  pose proof (sortedAllowPaths_NoDup localeCompare rules Hwf) as Hnd.
  unfold sortedAllowPaths in E, Hnd. rewrite E in Hs, Hnd.
  apply StronglySorted_app_r, StronglySorted_inv in Hs as [_ Hs].
  rewrite Forall_forall in Hs.
  assert (Hle : not_above localeCompare p q)
    by (apply Hs, in_or_app; right; now left).
  apply (le_ne_gt0 localeCompare Hc); [assumption |].
  intros ->. apply NoDup_remove_2 in Hnd. apply Hnd.
  apply in_or_app. right. apply in_or_app. right. now left.
Qed.

Lemma sortedAllowPaths_ascending_witness :
  Permutation (sortedAllowPaths codeUnitCompare demo_policy) (allowPaths demo_policy) /\
  NoDup (sortedAllowPaths codeUnitCompare demo_policy) /\
  forall l1 p l2 q l3,
    sortedAllowPaths codeUnitCompare demo_policy = (l1 ++ p :: l2 ++ q :: l3)%list ->
    JS.gt0 (comparePathPriority codeUnitCompare q p) = true.
Proof.
  apply (sortedAllowPaths_ascending codeUnitCompare demo_policy).
  - exact codeUnitCompare_consistent.
  - repeat constructor; simpl; intuition discriminate.
Defined.

(** ** What the policy formula says *)

Lemma buildPolicyMatch_eval
    (localeCompare : string -> string -> Z) (pathVar capVar : Z3.seq_ast)
    (rules : Policy) (phi : Z3.bool_ast) (m : Z3.model) :
  buildPolicyMatch localeCompare pathVar capVar rules = Some phi ->
  Z3.eval m phi = formula_value localeCompare pathVar capVar rules m.
Proof.
  unfold buildPolicyMatch, formula_value. intros H.
  destruct (isDenied pathVar rules) as [denied |] eqn:Hd; [| discriminate].
  destruct (isAllowed localeCompare pathVar capVar rules) as [allowed |] eqn:Ha;
    [| discriminate].
  injection H as <-. simpl. rewrite andb_true_r.
  rewrite (isDenied_eval pathVar m rules denied Hd).
  unfold isAllowed in Ha.
  now rewrite (cascade_eval pathVar capVar m rules _ _ _ Ha).
Qed.










Lemma find_rev_None {A : Type} (f : A -> bool) (l : list A) :
  find f (rev l) = None -> forall x, In x l -> f x = false.
Proof.
  intros H x Hx. apply (find_none f (rev l) H). now apply in_rev in Hx.
Qed.








Lemma nonempty_capabilities (caps : list string) :
  JS.includes caps "deny" || JS.some (fun c => negb (c =? "deny")%string) caps
  = true <-> caps <> [].
Proof.
  destruct caps as [| c caps]; [split; [discriminate | congruence] |].
  split; [discriminate | intros _].
  unfold JS.includes, JS.some. cbn [existsb].
  rewrite (String.eqb_sym "deny" c).
  destruct (c =? "deny")%string; [reflexivity |].
  cbn [negb orb]. apply orb_true_r.
Qed.

(** X12. The policy formula has no value (the builder hands [undefined] to
    [Z3.mk_seq_in_re]) exactly when the policy holds the empty pattern with a
    capability list that is not empty; an empty pattern with an empty list
    is never compiled. *)
Theorem buildPolicyMatch_undefined_iff
    (localeCompare : string -> string -> Z) (pathVar capVar : Z3.seq_ast)
    (rules : Policy) :
  buildPolicyMatch localeCompare pathVar capVar rules = None <->
  In "" (Object_keys rules) /\ get rules "" <> [].
Proof.
  rewrite <- nonempty_capabilities, orb_true_iff.
  assert (Hd : In "" (denyPaths rules) <->
               In "" (Object_keys rules) /\ JS.includes (get rules "") "deny" = true)
    by (unfold denyPaths; rewrite filter_In; reflexivity).
  assert (Ha : In "" (allowPaths rules) <->
               In "" (Object_keys rules) /\
               JS.some (fun c => negb (c =? "deny")%string) (get rules "") = true)
    by (unfold allowPaths; rewrite filter_In; reflexivity).
  unfold buildPolicyMatch. split.
  - destruct (isDenied pathVar rules) as [d |] eqn:Ed.
    + destruct (isAllowed localeCompare pathVar capVar rules) as [a |] eqn:Ea;
        [discriminate |].
      intros _. apply cascade_None in Ea as (p & Hin & Hp).
      apply buildRegexFromPath_None in Hp as ->.
      apply sortedAllowPaths_In, Ha in Hin. tauto.
    + intros _. apply isDenied_None in Ed as (p & Hin & Hp).
      apply buildRegexFromPath_None in Hp as ->. apply Hd in Hin. tauto.
  - intros [Hk [H | H]].
    + assert (E : isDenied pathVar rules = None).
      { apply isDenied_None. exists "". split; [now apply Hd | reflexivity]. }
      now rewrite E.
    + assert (E : isAllowed localeCompare pathVar capVar rules = None).
      { apply cascade_None. exists "". split; [| reflexivity].
        apply sortedAllowPaths_In. now apply Ha. }
      rewrite E. now destruct (isDenied pathVar rules).
Qed.

(** ** What a verdict of the check means *)

Lemma filter_keys_drop_value (F : list string -> bool) (l1 l2 : Policy)
    (p : string) (v : list string) :
  wf_policy (l1 ++ (p, v) :: l2)%list -> F v = false ->
  filter (fun q => F (get (l1 ++ (p, v) :: l2)%list q))
         (Object_keys (l1 ++ (p, v) :: l2)%list)
  = filter (fun q => F (get (l1 ++ l2)%list q)) (Object_keys (l1 ++ l2)%list).
Proof.
  intros Hwf HF. destruct (wf_middle _ _ _ _ Hwf) as [Hn1 Hn2].
  unfold Object_keys in *. rewrite !map_app in *. simpl.
  rewrite !filter_app. simpl.
  rewrite (get_middle_same l1 l2 p v Hn1), HF.
  f_equal; apply filter_ext_in; intros q Hq;
    rewrite get_middle_other; auto; intros ->; apply Hn2, in_or_app; auto.
Qed.

Lemma checkPrivilegeEscalation_not_sat
    (localeCompare : string -> string -> Z)
    (solver_check : Z3.bool_ast -> Z3.Z3_lbool)
    (solver_get_model : Z3.bool_ast -> Z3.model)
    (ast_to_string : Z3.bool_ast -> string)
    (currentRules newRules : Policy) (phic phin : Z3.bool_ast) :
  buildPolicyMatch localeCompare inputPath inputCap currentRules = Some phic ->
  buildPolicyMatch localeCompare inputPath inputCap newRules = Some phin ->
  solver_check (escalationQuery phic phin) <> Z3.Z3_L_TRUE ->
  exists calls,
    checkPrivilegeEscalation localeCompare solver_check solver_get_model
      ast_to_string currentRules newRules
    = Some ({| result := false;
               path := None;
               capability := None;
               z3 := {| currentPolicyAst := ast_to_string phic;
                        newPolicyAst := ast_to_string phin |} |},
            calls).
Proof.
  intros Hc Hn Hv. unfold checkPrivilegeEscalation. rewrite Hc, Hn.
  destruct (solver_check (escalationQuery phic phin));
    [eexists; reflexivity | eexists; reflexivity | congruence].
Qed.

(** X13. Adding a rule that lists no capability other than [deny] never
    escalates: the formula of the larger policy implies the formula of the
    smaller one, and with a sound solver the check returns the no-escalation
    result. *)
Theorem adding_deny_only_rule_never_escalates
    (localeCompare : string -> string -> Z)
    (solver_check : Z3.bool_ast -> Z3.Z3_lbool)
    (solver_get_model : Z3.bool_ast -> Z3.model)
    (ast_to_string : Z3.bool_ast -> string)
    (l1 l2 : Policy) (p : string) (caps : list string)
    (phic phin : Z3.bool_ast) :
  wf_policy (l1 ++ (p, caps) :: l2)%list ->
  JS.some (fun c => negb (c =? "deny")%string) caps = false ->
  buildPolicyMatch localeCompare inputPath inputCap (l1 ++ l2)%list = Some phic ->
  buildPolicyMatch localeCompare inputPath inputCap (l1 ++ (p, caps) :: l2)%list
  = Some phin ->
  solver_sound_on solver_check solver_get_model (escalationQuery phic phin) ->
  (forall m, Z3.eval m phin = true -> Z3.eval m phic = true) /\
  exists calls,
    checkPrivilegeEscalation localeCompare solver_check solver_get_model
      ast_to_string (l1 ++ l2)%list (l1 ++ (p, caps) :: l2)%list
    = Some ({| result := false;
               path := None;
               capability := None;
               z3 := {| currentPolicyAst := ast_to_string phic;
                        newPolicyAst := ast_to_string phin |} |},
            calls).
Proof.
  intros Hwf Hcaps Hc Hn [Hsat _].
  destruct (wf_middle _ _ _ _ Hwf) as [Hn1 Hn2].
  assert (Himp : forall m, Z3.eval m phin = true -> Z3.eval m phic = true).
  { intros m.
    rewrite (buildPolicyMatch_eval _ _ _ _ _ m Hc).
    rewrite (buildPolicyMatch_eval _ _ _ _ _ m Hn).
    unfold formula_value, sortedAllowPaths.
    assert (Ha : allowPaths (l1 ++ (p, caps) :: l2)%list = allowPaths (l1 ++ l2)%list).
    { unfold allowPaths.
      apply (filter_keys_drop_value
               (JS.some (fun c => negb (c =? "deny")%string))); auto. }
    rewrite Ha. rewrite !andb_true_iff, !negb_true_iff. intros [H1 H2]. split.
    - destruct (find (path_matches m inputPath)
                  (rev (JS.sort (comparePathPriority localeCompare)
                          (allowPaths (l1 ++ l2)%list)))) as [q |] eqn:Hf;
        [| discriminate].
      rewrite get_middle_other in H1; [assumption |].
      intros ->. apply Hn2. apply find_some in Hf as [Hin _].
      apply in_rev in Hin.
      assert (Hq : In p (allowPaths (l1 ++ l2)%list))
        by (eapply Permutation_in; [apply sort_Permutation | exact Hin]).
      unfold allowPaths in Hq. now apply filter_In in Hq.
    - destruct (existsb (path_matches m inputPath) (denyPaths (l1 ++ l2)%list))
        eqn:Hd; [| reflexivity].
      apply existsb_exists in Hd as (d & Hin & Hm).
      assert (Hex : existsb (path_matches m inputPath)
                      (denyPaths (l1 ++ (p, caps) :: l2)%list) = true).
      { apply existsb_exists. exists d. split; [| assumption].
        unfold denyPaths in *. apply filter_In in Hin as [Hk Hi].
        apply filter_In. split.
        - unfold Object_keys in *. rewrite map_app in *. simpl.
          apply in_app_or in Hk as [Hk | Hk]; apply in_or_app; auto.
          right. now right.
        - rewrite get_middle_other; [assumption |].
          intros ->. now apply Hn2. }
      congruence. }
  split; [exact Himp |].
  apply checkPrivilegeEscalation_not_sat; auto.
  intros Hv. specialize (Hsat Hv). rewrite escalationQuery_eval in Hsat.
  apply andb_true_iff in Hsat as [H1 H2]. rewrite (Himp _ H2) in H1. discriminate.
Qed.

Lemma adding_deny_only_rule_never_escalates_witness :
  exists phic phin,
    buildPolicyMatch codeUnitCompare inputPath inputCap
      (scenario6_new ++ [])%list = Some phic /\
    buildPolicyMatch codeUnitCompare inputPath inputCap
      (scenario6_new ++ ("secret/app/admin", ["deny"]) :: [])%list = Some phin /\
    (forall m, Z3.eval m phin = true -> Z3.eval m phic = true) /\
    exists calls,
      checkPrivilegeEscalation codeUnitCompare (verdict Z3.Z3_L_UNDEF)
        (fixed_model (model_of "" "")) no_rendering
        (scenario6_new ++ [])%list
        (scenario6_new ++ ("secret/app/admin", ["deny"]) :: [])%list
      = Some ({| result := false;
                 path := None;
                 capability := None;
                 z3 := {| currentPolicyAst := no_rendering phic;
                          newPolicyAst := no_rendering phin |} |},
              calls).
Proof.
  eexists _, _. split; [reflexivity |]. split; [reflexivity |].
  apply (adding_deny_only_rule_never_escalates codeUnitCompare
           (verdict Z3.Z3_L_UNDEF) (fixed_model (model_of "" "")) no_rendering
           scenario6_new [] "secret/app/admin" ["deny"]).
  - repeat constructor; simpl; intuition discriminate.
  - reflexivity.
  - reflexivity.
  - reflexivity.
  - split; discriminate.
Defined.




(** X15. With a sound solver, an [unsat] verdict means what the page then
    tells the user: the check returns the no-escalation result, and no path
    and capability is granted by the new policy's formula without being
    granted by the current policy's. *)
Theorem unsat_verdict_means_no_escalation
    (localeCompare : string -> string -> Z)
    (solver_check : Z3.bool_ast -> Z3.Z3_lbool)
    (solver_get_model : Z3.bool_ast -> Z3.model)
    (ast_to_string : Z3.bool_ast -> string)
    (currentRules newRules : Policy) (phic phin : Z3.bool_ast) :
  buildPolicyMatch localeCompare inputPath inputCap currentRules = Some phic ->
  buildPolicyMatch localeCompare inputPath inputCap newRules = Some phin ->
  solver_sound_on solver_check solver_get_model (escalationQuery phic phin) ->
  solver_check (escalationQuery phic phin) = Z3.Z3_L_FALSE ->
  (exists calls,
      checkPrivilegeEscalation localeCompare solver_check solver_get_model
        ast_to_string currentRules newRules
      = Some ({| result := false;
                 path := None;
                 capability := None;
                 z3 := {| currentPolicyAst := ast_to_string phic;
                          newPolicyAst := ast_to_string phin |} |},
              calls)) /\
  (forall examplePath exampleCapability,
      Z3.eval (model_of examplePath exampleCapability) phin = true ->
      Z3.eval (model_of examplePath exampleCapability) phic = true).
Proof.
  intros Hc Hn [_ Hunsat] Hv. split.
  - apply checkPrivilegeEscalation_not_sat; auto. rewrite Hv. discriminate.
  - intros p c Hp. specialize (Hunsat Hv (model_of p c)).
    rewrite escalationQuery_eval, Hp, andb_true_r in Hunsat.
    now apply negb_false_iff in Hunsat.
Qed.

Lemma unsat_verdict_means_no_escalation_witness :
  (exists calls,
      checkPrivilegeEscalation codeUnitCompare (verdict Z3.Z3_L_FALSE)
        (fixed_model (model_of "" "")) no_rendering
        scenario6_new scenario6_new
      = Some ({| result := false;
                 path := None;
                 capability := None;
                 z3 := {| currentPolicyAst := no_rendering (read_on secret_app_star);
                          newPolicyAst := no_rendering (read_on secret_app_star) |} |},
              calls)) /\
  (forall examplePath exampleCapability,
      Z3.eval (model_of examplePath exampleCapability) (read_on secret_app_star)
      = true ->
      Z3.eval (model_of examplePath exampleCapability) (read_on secret_app_star)
      = true).
Proof.
  apply (unsat_verdict_means_no_escalation codeUnitCompare
           (verdict Z3.Z3_L_FALSE) (fixed_model (model_of "" "")) no_rendering
           scenario6_new scenario6_new
           (read_on secret_app_star) (read_on secret_app_star)).
  - reflexivity.
  - reflexivity.
  - split; [discriminate |]. intros _ m. apply escalationQuery_self_unsat.
  - reflexivity.
Defined.

Lemma count_call_app (c : Z3_call) (l1 l2 : list Z3_call) :
  count_call c (l1 ++ l2)%list = (count_call c l1 + count_call c l2)%nat.
Proof. unfold count_call. now rewrite filter_app, length_app. Qed.

(** X16. On both ways out of a check the solver handles are released: the
    solver and the model are unreferenced as often as they were referenced,
    the context is created once and deleted once, as the last call; one
    formula is asserted, the decision procedure runs once, and the model is
    fetched exactly when an escalation is reported. *)
Theorem solver_handles_released
    (localeCompare : string -> string -> Z)
    (solver_check : Z3.bool_ast -> Z3.Z3_lbool)
    (solver_get_model : Z3.bool_ast -> Z3.model)
    (ast_to_string : Z3.bool_ast -> string)
    (currentRules newRules : Policy)
    (r : PolicyCheckResult) (calls : list Z3_call) :
  checkPrivilegeEscalation localeCompare solver_check solver_get_model
    ast_to_string currentRules newRules = Some (r, calls) ->
  count_call call_solver_inc_ref calls = count_call call_solver_dec_ref calls /\
  count_call call_model_inc_ref calls = count_call call_model_dec_ref calls /\
  count_call call_mk_context calls = 1%nat /\
  count_call call_del_context calls = 1%nat /\
  last calls call_mk_context = call_del_context /\
  count_call call_solver_check calls = 1%nat /\
  count_call (call_solver_assert Z3.mk_false) calls = 1%nat /\
  count_call call_solver_get_model calls = (if result r then 1 else 0)%nat.
Proof.
  unfold checkPrivilegeEscalation.
  destruct (buildPolicyMatch localeCompare inputPath inputCap currentRules)
    as [phic |]; [| discriminate].
  destruct (buildPolicyMatch localeCompare inputPath inputCap newRules)
    as [phin |]; [| discriminate].
  destruct (solver_check (escalationQuery phic phin));
    intros [= <- <-]; repeat split; reflexivity.
Qed.

Lemma solver_handles_released_witness :
  exists calls,
    count_call call_solver_inc_ref calls = count_call call_solver_dec_ref calls /\
    count_call call_model_inc_ref calls = count_call call_model_dec_ref calls /\
    count_call call_mk_context calls = 1%nat /\
    count_call call_del_context calls = 1%nat /\
    last calls call_mk_context = call_del_context /\
    count_call call_solver_check calls = 1%nat /\
    count_call (call_solver_assert Z3.mk_false) calls = 1%nat /\
    count_call call_solver_get_model calls = 1%nat.
Proof.
  eexists.
  apply (solver_handles_released codeUnitCompare (verdict Z3.Z3_L_TRUE)
           (fixed_model (model_of "secret/app/x/y" "read")) no_rendering
           scenario6_current scenario6_new
           {| result := true;
              path := Some "secret/app/x/y";
              capability := Some "read";
              z3 := {| currentPolicyAst := ""; newPolicyAst := "" |} |}).
  reflexivity.
Defined.

(** ** From the parsed policy text to the rules *)

Lemma hclPathsToMap_snoc (h : HclPaths) (key : string) (blocks : list Block) :
  hclPathsToMap (h ++ [(key, blocks)])%list
  = match hclPathsToMap h, blocks with
    | Some obj, block :: _ => Some (set_property obj key (capabilities block))
    | _, _ => None
    end.
Proof. unfold hclPathsToMap. now rewrite fold_left_app. Qed.

Lemma get_assign_same (obj : Policy) (key : string) (v : list string) :
  get (assign obj key v) key = v.
Proof.
  induction obj as [| [k w] obj IH]; simpl.
  - now rewrite String.eqb_refl.
  - destruct (String.eqb_spec k key) as [-> | Hne]; simpl.
    + now rewrite String.eqb_refl.
    + destruct (String.eqb_spec k key); [contradiction | assumption].
Qed.

Lemma get_assign_other (obj : Policy) (key k' : string) (v : list string) :
  k' <> key -> get (assign obj key v) k' = get obj k'.
Proof.
  intros Hne. induction obj as [| [k w] obj IH]; simpl.
  - destruct (String.eqb_spec key k'); [congruence | reflexivity].
  - destruct (String.eqb_spec k key) as [-> | Hk]; simpl.
    + destruct (String.eqb_spec key k'); [congruence | reflexivity].
    + now rewrite IH.
Qed.

Lemma keys_assign_new (obj : Policy) (key : string) (v : list string) :
  ~ In key (Object_keys obj) ->
  Object_keys (assign obj key v) = (Object_keys obj ++ [key])%list.
Proof.
  unfold Object_keys. induction obj as [| [k w] obj IH]; simpl; intros Hn.
  - reflexivity.
  - destruct (String.eqb_spec k key) as [-> | Hk]; [tauto |].
    simpl. rewrite IH; tauto.
Qed.

Lemma hclPathsToMap_keys (h : HclPaths) (paths : Policy) :
  NoDup (map fst h) -> hclPathsToMap h = Some paths ->
  Object_keys paths
  = filter (fun k => negb (k =? "__proto__")%string) (map fst h).
Proof.
  revert paths. induction h as [| [key blocks] h IH] using rev_ind;
    intros paths Hnd H.
  - injection H as <-. reflexivity.
  - rewrite hclPathsToMap_snoc in H.
    rewrite map_app in Hnd. simpl in Hnd.
    apply NoDup_remove in Hnd as [Hnd Hnot]. rewrite app_nil_r in Hnd, Hnot.
    destruct (hclPathsToMap h) as [obj |]; [| discriminate].
    destruct blocks as [| block more]; [discriminate |]. injection H as <-.
    specialize (IH obj Hnd eq_refl).
    rewrite map_app, filter_app. simpl. unfold set_property.
    destruct (String.eqb_spec key "__proto__") as [-> | Hne]; simpl.
    + now rewrite app_nil_r.
    + rewrite keys_assign_new, IH; [reflexivity |].
      rewrite IH. intros Hin. apply filter_In in Hin. tauto.
Qed.

Lemma hclPathsToMap_get (h : HclPaths) (paths : Policy)
    (key : string) (block : Block) (more : list Block) :
  NoDup (map fst h) -> hclPathsToMap h = Some paths ->
  In (key, block :: more) h -> key <> "__proto__" ->
  get paths key = capabilities block.
Proof.
  revert paths. induction h as [| [k blocks] h IH] using rev_ind;
    intros paths Hnd H Hin Hne.
  - contradiction.
  - rewrite hclPathsToMap_snoc in H.
    rewrite map_app in Hnd. simpl in Hnd.
    apply NoDup_remove in Hnd as [Hnd Hnot]. rewrite app_nil_r in Hnd, Hnot.
    destruct (hclPathsToMap h) as [obj |]; [| discriminate].
    destruct blocks as [| b bs]; [discriminate |]. injection H as <-.
    apply in_app_or in Hin as [Hin | [[= -> -> ->] | []]].
    + assert (Hk : key <> k).
      { intros ->. apply Hnot. apply in_map_iff. now exists (k, block :: more). }
      unfold set_property. destruct (k =? "__proto__")%string.
      * now apply IH.
      * rewrite get_assign_other by assumption. now apply IH.
    + unfold set_property.
      destruct (String.eqb_spec key "__proto__"); [contradiction |].
      apply get_assign_same.
Qed.

(** X17. [hclPathsToMap] keeps, for every pattern, the capability list of its
    first block only: the lists of further blocks for the same pattern are
    dropped, not merged.  The patterns come out in the order they went in,
    each once, except that [__proto__] does not come out at all. *)
Theorem hclPathsToMap_keeps_first_block (h : HclPaths) (paths : Policy) :
  NoDup (map fst h) ->
  hclPathsToMap h = Some paths ->
  (forall key block more,
      In (key, block :: more) h -> key <> "__proto__" ->
      get paths key = capabilities block) /\
  Object_keys paths
  = filter (fun k => negb (k =? "__proto__")%string) (map fst h) /\
  wf_policy paths.
Proof.
  intros Hnd H. split; [| split].
  - intros key block more. now apply hclPathsToMap_get.
  - now apply hclPathsToMap_keys.
  - unfold wf_policy. rewrite (hclPathsToMap_keys h paths Hnd H).
    now apply NoDup_filter.
Qed.

Lemma hclPathsToMap_keeps_first_block_witness :
  (forall key block more,
      In (key, block :: more) two_blocks -> key <> "__proto__" ->
      get [("secret/app/*", ["read"]); ("secret/users", ["list"])] key
      = capabilities block) /\
  Object_keys [("secret/app/*", ["read"]); ("secret/users", ["list"])]
  = filter (fun k => negb (k =? "__proto__")%string) (map fst two_blocks) /\
  wf_policy [("secret/app/*", ["read"]); ("secret/users", ["list"])].
Proof.
  apply (hclPathsToMap_keeps_first_block two_blocks).
  - repeat constructor; simpl; intuition discriminate.
  - reflexivity.
Defined.

(** X18. [hclPathsToMap] throws exactly when some pattern comes with an empty
    array of blocks. *)
Theorem hclPathsToMap_throws_iff (h : HclPaths) :
  hclPathsToMap h = None <-> exists key, In (key, []) h.
Proof.
  induction h as [| [key blocks] h IH] using rev_ind.
  - split; [discriminate | intros (key & [])].
  - rewrite hclPathsToMap_snoc. split.
    + destruct (hclPathsToMap h) as [obj |] eqn:E.
      * destruct blocks as [| b bs]; [| discriminate].
        intros _. exists key. apply in_or_app. right. now left.
      * intros _. destruct IH as [IH _]. destruct (IH eq_refl) as (k & Hk).
        exists k. apply in_or_app. now left.
    + intros (k & Hin). apply in_app_or in Hin as [Hin | [[= -> ->] | []]].
      * assert (E : hclPathsToMap h = None) by (apply IH; eauto). now rewrite E.
      * now destruct (hclPathsToMap h).
Qed.

(** ** The page handler *)

(** X19. When the checker is loaded, [handleCheck] always ends and leaves the
    page not checking and showing either one error or the results, never
    both, and nothing of what it showed before.  An error names the first
    policy text that failed, the current one before the new one, or, where
    both texts were read and the check ended with an error, says that an
    error occurred during the check; results are those of
    [checkPrivilegeEscalation] on the two policies read from the texts. *)
Theorem handleCheck_outcome
    (localeCompare : string -> string -> Z)
    (solver_check : Z3.bool_ast -> Z3.Z3_lbool)
    (solver_get_model : Z3.bool_ast -> Z3.model)
    (ast_to_string : Z3.bool_ast -> string)
    (hcl_path : string -> Outcome HclPaths)
    (capabilities_of_undefined check_error_message : string)
    (currentPolicy newPolicy : string) (st : PageState) :
  exists st',
    handleCheck localeCompare solver_check solver_get_model ast_to_string
      hcl_path capabilities_of_undefined check_error_message true
      currentPolicy newPolicy st
    = Some st' /\
    isChecking st' = false /\
    ((exists message,
         policyObject hcl_path capabilities_of_undefined currentPolicy
         = Thrown message /\
         error st' = Some ("Invalid HCL in current policy: " ++ message) /\
         policyCheckResults st' = None) \/
     (exists currentPolicyObject message,
         policyObject hcl_path capabilities_of_undefined currentPolicy
         = Returned currentPolicyObject /\
         policyObject hcl_path capabilities_of_undefined newPolicy
         = Thrown message /\
         error st' = Some ("Invalid HCL in new policy: " ++ message) /\
         policyCheckResults st' = None) \/
     (exists currentPolicyObject newPolicyObject,
         policyObject hcl_path capabilities_of_undefined currentPolicy
         = Returned currentPolicyObject /\
         policyObject hcl_path capabilities_of_undefined newPolicy
         = Returned newPolicyObject /\
         checkPrivilegeEscalation localeCompare solver_check solver_get_model
           ast_to_string currentPolicyObject newPolicyObject
         = None /\
         error st'
         = Some ("An error occurred during check: " ++ check_error_message) /\
         policyCheckResults st' = None) \/
     (exists currentPolicyObject newPolicyObject results calls,
         policyObject hcl_path capabilities_of_undefined currentPolicy
         = Returned currentPolicyObject /\
         policyObject hcl_path capabilities_of_undefined newPolicy
         = Returned newPolicyObject /\
         checkPrivilegeEscalation localeCompare solver_check solver_get_model
           ast_to_string currentPolicyObject newPolicyObject
         = Some (results, calls) /\
         error st' = None /\
         policyCheckResults st' = Some results)).
Proof.
  unfold handleCheck. cbn [negb].
  destruct (policyObject hcl_path capabilities_of_undefined currentPolicy)
    as [cur | msg] eqn:Ec.
  - destruct (policyObject hcl_path capabilities_of_undefined newPolicy)
      as [new | msg] eqn:En.
    + destruct (checkPrivilegeEscalation localeCompare solver_check
                  solver_get_model ast_to_string cur new)
        as [[results calls] |] eqn:Ek.
      * eexists. split; [reflexivity |]. split; [reflexivity |].
        right. right. right. exists cur, new, results, calls. auto.
      * eexists. split; [reflexivity |]. split; [reflexivity |].
        right. right. left. exists cur, new. auto.
    + eexists. split; [reflexivity |]. split; [reflexivity |].
      right. left. exists cur, msg. auto.
  - eexists. split; [reflexivity |]. split; [reflexivity |].
    left. exists msg. auto.
Qed.

Lemma handleCheck_outcome_witness :
  exists st',
    handleCheck codeUnitCompare (verdict Z3.Z3_L_UNDEF)
      (fixed_model (model_of "" "")) no_rendering empty_pattern_hcl_path
      "TypeError" "Error" true "cur" "new" initial_page
    = Some st' /\
    isChecking st' = false /\
    ((exists message,
         policyObject empty_pattern_hcl_path "TypeError" "cur" = Thrown message /\
         error st' = Some ("Invalid HCL in current policy: " ++ message) /\
         policyCheckResults st' = None) \/
     (exists currentPolicyObject message,
         policyObject empty_pattern_hcl_path "TypeError" "cur"
         = Returned currentPolicyObject /\
         policyObject empty_pattern_hcl_path "TypeError" "new" = Thrown message /\
         error st' = Some ("Invalid HCL in new policy: " ++ message) /\
         policyCheckResults st' = None) \/
     (exists currentPolicyObject newPolicyObject,
         policyObject empty_pattern_hcl_path "TypeError" "cur"
         = Returned currentPolicyObject /\
         policyObject empty_pattern_hcl_path "TypeError" "new"
         = Returned newPolicyObject /\
         checkPrivilegeEscalation codeUnitCompare (verdict Z3.Z3_L_UNDEF)
           (fixed_model (model_of "" "")) no_rendering
           currentPolicyObject newPolicyObject
         = None /\
         error st' = Some ("An error occurred during check: " ++ "Error") /\
         policyCheckResults st' = None) \/
     (exists currentPolicyObject newPolicyObject results calls,
         policyObject empty_pattern_hcl_path "TypeError" "cur"
         = Returned currentPolicyObject /\
         policyObject empty_pattern_hcl_path "TypeError" "new"
         = Returned newPolicyObject /\
         checkPrivilegeEscalation codeUnitCompare (verdict Z3.Z3_L_UNDEF)
           (fixed_model (model_of "" "")) no_rendering
           currentPolicyObject newPolicyObject
         = Some (results, calls) /\
         error st' = None /\
         policyCheckResults st' = Some results)).
Proof.
  apply (handleCheck_outcome codeUnitCompare (verdict Z3.Z3_L_UNDEF)
           (fixed_model (model_of "" "")) no_rendering empty_pattern_hcl_path
           "TypeError" "Error" "cur" "new" initial_page).
Defined.

(** On a policy text with an empty pattern the page shows the error of the
    check and is no longer checking. *)
Lemma handleCheck_empty_pattern :
  handleCheck codeUnitCompare (verdict Z3.Z3_L_UNDEF)
    (fixed_model (model_of "" "")) no_rendering empty_pattern_hcl_path
    "TypeError" "Error" true "cur" "new" initial_page
  = Some {| isChecking := false;
            error := Some "An error occurred during check: Error";
            policyCheckResults := None |}.
Proof. reflexivity. Qed.


Lemma model_checking_solver_sound (m : Z3.model) (q : Z3.bool_ast) :
  solver_sound_on (model_checking_solver m) (fixed_model m) q.
Proof.
  unfold solver_sound_on, model_checking_solver, fixed_model.
  destruct (Z3.eval m q); split; congruence.
Qed.


(** ** The demo *)

Lemma path_matches_literal (m : Z3.model) (pathVar : Z3.seq_ast) (p : string) :
  buildRegexFromPath p = Some (Z3.mk_seq_to_re (Z3.string_value p)) ->
  path_matches m pathVar p = true -> Z3.eval_seq m pathVar = p.
Proof.
  unfold path_matches. intros ->. apply re_match_literal.
Qed.

Lemma grants_read (m : Z3.model) :
  grants m inputCap ["read"] = (m "cap" =? "read")%string.
Proof.
  unfold grants. cbn [existsb Z3.eval_seq inputCap].
  now rewrite orb_false_r.
Qed.

Lemma grants_read_write (m : Z3.model) :
  grants m inputCap ["read"; "write"]
  = ((m "cap" =? "read")%string || (m "cap" =? "write")%string).
Proof.
  unfold grants. cbn [existsb Z3.eval_seq inputCap].
  now rewrite orb_false_r.
Qed.

Lemma demo_formula_current (localeCompare : string -> string -> Z) (m : Z3.model) :
  formula_value localeCompare inputPath inputCap demo_current m
  = (if path_matches m inputPath "secret/users" then (m "cap" =? "read")%string
     else if path_matches m inputPath "secret/posts/*"
          then (m "cap" =? "read")%string || (m "cap" =? "write")%string
          else false)
    && negb (path_matches m inputPath "secret/posts/admin").
Proof.
  unfold formula_value.
  change (sortedAllowPaths localeCompare demo_current)
    with ["secret/posts/*"; "secret/users"].
  change (denyPaths demo_current) with ["secret/posts/admin"].
  cbn [rev app find existsb]. rewrite orb_false_r.
  destruct (path_matches m inputPath "secret/users");
    [now rewrite <- grants_read |].
  destruct (path_matches m inputPath "secret/posts/*");
    [now rewrite <- grants_read_write | reflexivity].
Qed.

Lemma demo_formula_new_1 (localeCompare : string -> string -> Z) (m : Z3.model) :
  formula_value localeCompare inputPath inputCap demo_new_1 m
  = if path_matches m inputPath "secret/posts/admin" then (m "cap" =? "read")%string
    else if path_matches m inputPath "secret/users" then (m "cap" =? "read")%string
    else if path_matches m inputPath "secret/posts/*"
         then (m "cap" =? "read")%string || (m "cap" =? "write")%string
         else false.
Proof.
  unfold formula_value.
  change (sortedAllowPaths localeCompare demo_new_1)
    with ["secret/posts/*"; "secret/users"; "secret/posts/admin"].
  change (denyPaths demo_new_1) with (@nil string).
  cbn [rev app find existsb negb]. rewrite andb_true_r.
  destruct (path_matches m inputPath "secret/posts/admin");
    [now rewrite <- grants_read |].
  destruct (path_matches m inputPath "secret/users");
    [now rewrite <- grants_read |].
  destruct (path_matches m inputPath "secret/posts/*");
    [now rewrite <- grants_read_write | reflexivity].
Qed.

Lemma demo_formula_new_3 (localeCompare : string -> string -> Z) (m : Z3.model) :
  formula_value localeCompare inputPath inputCap demo_new_3 m
  = (if path_matches m inputPath "secret/posts/ad" then (m "cap" =? "read")%string
     else if path_matches m inputPath "secret/users" then (m "cap" =? "read")%string
     else if path_matches m inputPath "secret/posts/*"
          then (m "cap" =? "read")%string || (m "cap" =? "write")%string
          else false)
    && negb (path_matches m inputPath "secret/posts/admin").
Proof.
  unfold formula_value.
  change (sortedAllowPaths localeCompare demo_new_3)
    with ["secret/posts/*"; "secret/users"; "secret/posts/ad"].
  change (denyPaths demo_new_3) with ["secret/posts/admin"].
  cbn [rev app find existsb]. rewrite orb_false_r.
  destruct (path_matches m inputPath "secret/posts/ad");
    [now rewrite <- grants_read |].
  destruct (path_matches m inputPath "secret/users");
    [now rewrite <- grants_read |].
  destruct (path_matches m inputPath "secret/posts/*");
    [now rewrite <- grants_read_write | reflexivity].
Qed.

Lemma testAndPrint_no_escalation
    (localeCompare : string -> string -> Z)
    (solver_check : Z3.bool_ast -> Z3.Z3_lbool)
    (solver_get_model : Z3.bool_ast -> Z3.model)
    (ast_to_string : Z3.bool_ast -> string)
    (currentRules newRules : Policy) (phic phin : Z3.bool_ast) :
  buildPolicyMatch localeCompare inputPath inputCap currentRules = Some phic ->
  buildPolicyMatch localeCompare inputPath inputCap newRules = Some phin ->
  solver_sound_on solver_check solver_get_model (escalationQuery phic phin) ->
  (forall m, Z3.eval m (escalationQuery phic phin) = false) ->
  testAndPrint localeCompare solver_check solver_get_model ast_to_string
    currentRules newRules
  = Some ["No privilege escalation detected."].
Proof.
  intros Hc Hn [Hsat _] Hunsat. unfold testAndPrint.
  destruct (checkPrivilegeEscalation_not_sat localeCompare solver_check
              solver_get_model ast_to_string currentRules newRules phic phin
              Hc Hn) as (calls & ->); [| reflexivity].
  intros Hv. specialize (Hsat Hv). rewrite Hunsat in Hsat. discriminate.
Qed.

Lemma testAndPrint_escalation
    (localeCompare : string -> string -> Z)
    (solver_check : Z3.bool_ast -> Z3.Z3_lbool)
    (solver_get_model : Z3.bool_ast -> Z3.model)
    (ast_to_string : Z3.bool_ast -> string)
    (currentRules newRules : Policy) (phic phin : Z3.bool_ast)
    (m0 : Z3.model) (examplePath exampleCapability : string) :
  buildPolicyMatch localeCompare inputPath inputCap currentRules = Some phic ->
  buildPolicyMatch localeCompare inputPath inputCap newRules = Some phin ->
  solver_sound_on solver_check solver_get_model (escalationQuery phic phin) ->
  solver_check (escalationQuery phic phin) <> Z3.Z3_L_UNDEF ->
  Z3.eval m0 (escalationQuery phic phin) = true ->
  (forall m, Z3.eval m (escalationQuery phic phin) = true ->
             m "path" = examplePath /\ m "cap" = exampleCapability) ->
  testAndPrint localeCompare solver_check solver_get_model ast_to_string
    currentRules newRules
  = Some [ "Privilege escalation detected!";
           "Example path: " ++ examplePath;
           "Example capability: " ++ exampleCapability ].
Proof.
  intros Hc Hn [Hsat Hunsat] Hdec Hm0 Huniq.
  unfold testAndPrint, checkPrivilegeEscalation. rewrite Hc, Hn.
  destruct (solver_check (escalationQuery phic phin)) eqn:Hv.
  - specialize (Hunsat eq_refl m0). congruence.
  - congruence.
  - destruct (Huniq _ (Hsat eq_refl)) as [Hp Hcap].
    cbn [result path capability template]. now rewrite Hp, Hcap.
Qed.

Lemma path_matches_at (m : Z3.model) (p s : string) :
  m "path" = s ->
  path_matches m inputPath p
  = match buildRegexFromPath p with
    | Some re => Z3.re_match re s
    | None => false
    end.
Proof. intros <-. reflexivity. Qed.

(** On the first request of the demo the query has one model only. *)
Lemma demo_request_1_model
    (localeCompare : string -> string -> Z) (phic phin : Z3.bool_ast)
    (m : Z3.model) :
  buildPolicyMatch localeCompare inputPath inputCap demo_current = Some phic ->
  buildPolicyMatch localeCompare inputPath inputCap demo_new_1 = Some phin ->
  Z3.eval m (escalationQuery phic phin) = true ->
  m "path" = "secret/posts/admin" /\ m "cap" = "read".
Proof.
  intros Hc Hn. rewrite escalationQuery_eval.
  rewrite (buildPolicyMatch_eval _ _ _ _ _ m Hc),
    (buildPolicyMatch_eval _ _ _ _ _ m Hn).
  rewrite demo_formula_current, demo_formula_new_1.
  destruct (path_matches m inputPath "secret/posts/admin") eqn:Ha.
  - apply path_matches_literal in Ha; [| reflexivity].
    rewrite andb_false_r. cbn [negb andb].
    intros H. apply String.eqb_eq in H. split; [exact Ha | exact H].
  - rewrite andb_true_r. intros H.
    destruct (if path_matches m inputPath "secret/users"
              then (m "cap" =? "read")%string
              else if path_matches m inputPath "secret/posts/*"
                   then (m "cap" =? "read")%string || (m "cap" =? "write")%string
                   else false); discriminate.
Qed.

(** On the third request of the demo the query has no model. *)
Lemma demo_request_3_unsat
    (localeCompare : string -> string -> Z) (phic phin : Z3.bool_ast)
    (m : Z3.model) :
  buildPolicyMatch localeCompare inputPath inputCap demo_current = Some phic ->
  buildPolicyMatch localeCompare inputPath inputCap demo_new_3 = Some phin ->
  Z3.eval m (escalationQuery phic phin) = false.
Proof.
  intros Hc Hn. rewrite escalationQuery_eval.
  rewrite (buildPolicyMatch_eval _ _ _ _ _ m Hc),
    (buildPolicyMatch_eval _ _ _ _ _ m Hn).
  rewrite demo_formula_current, demo_formula_new_3.
  destruct (path_matches m inputPath "secret/posts/ad") eqn:Ha.
  - apply path_matches_literal in Ha; [| reflexivity].
    cbn [Z3.eval_seq inputPath] in Ha.
    rewrite (path_matches_at m "secret/users" _ Ha).
    rewrite (path_matches_at m "secret/posts/*" _ Ha).
    rewrite (path_matches_at m "secret/posts/admin" _ Ha).
    replace (match buildRegexFromPath "secret/users" with
             | Some re => Z3.re_match re "secret/posts/ad"
             | None => false
             end) with false by (vm_compute; reflexivity).
    replace (match buildRegexFromPath "secret/posts/*" with
             | Some re => Z3.re_match re "secret/posts/ad"
             | None => false
             end) with true by (vm_compute; reflexivity).
    replace (match buildRegexFromPath "secret/posts/admin" with
             | Some re => Z3.re_match re "secret/posts/ad"
             | None => false
             end) with false by (vm_compute; reflexivity).
    destruct (m "cap" =? "read")%string, (m "cap" =? "write")%string;
      reflexivity.
  - destruct ((if path_matches m inputPath "secret/users"
               then (m "cap" =? "read")%string
               else if path_matches m inputPath "secret/posts/*"
                    then (m "cap" =? "read")%string || (m "cap" =? "write")%string
                    else false)
              && negb (path_matches m inputPath "secret/posts/admin"));
      reflexivity.
Qed.

(** X21. With a solver that is sound on every query and decides the first
    one, [runDemo] prints the heading, an escalation of [read] on
    [secret/posts/admin] for the first request (the deny rule was replaced by
    a grant; no other path or capability can be printed), and no escalation
    for the second (same rules) and the third request (a rule added below a
    wildcard that already grants more). *)
Theorem runDemo_output
    (localeCompare : string -> string -> Z)
    (solver_check : Z3.bool_ast -> Z3.Z3_lbool)
    (solver_get_model : Z3.bool_ast -> Z3.model)
    (ast_to_string : Z3.bool_ast -> string) :
  (forall q, solver_sound_on solver_check solver_get_model q) ->
  (forall q, policyQuery localeCompare demo_current demo_new_1 = Some q ->
             solver_check q <> Z3.Z3_L_UNDEF) ->
  runDemo localeCompare solver_check solver_get_model ast_to_string
  = Some [ String (ascii_of_nat 10) "Testing with deny capability...";
           "Privilege escalation detected!";
           "Example path: secret/posts/admin";
           "Example capability: read";
           "No privilege escalation detected.";
           "No privilege escalation detected." ].
Proof.
  intros Hsound Hdec.
  destruct (buildPolicyMatch_defined localeCompare inputPath inputCap demo_current)
    as (phic & Hc); [simpl; intuition discriminate |].
  destruct (buildPolicyMatch_defined localeCompare inputPath inputCap demo_new_1)
    as (phi1 & H1); [simpl; intuition discriminate |].
  destruct (buildPolicyMatch_defined localeCompare inputPath inputCap demo_new_3)
    as (phi3 & H3); [simpl; intuition discriminate |].
  unfold runDemo.
  rewrite (testAndPrint_escalation localeCompare solver_check solver_get_model
             ast_to_string demo_current demo_new_1 phic phi1
             (model_of "secret/posts/admin" "read")
             "secret/posts/admin" "read" Hc H1 (Hsound _)).
  - rewrite (testAndPrint_no_escalation localeCompare solver_check
               solver_get_model ast_to_string demo_current demo_new_2 phic phic
               Hc Hc (Hsound _) (fun m => escalationQuery_self_unsat m phic)).
    rewrite (testAndPrint_no_escalation localeCompare solver_check
               solver_get_model ast_to_string demo_current demo_new_3 phic phi3
               Hc H3 (Hsound _)
               (fun m => demo_request_3_unsat localeCompare phic phi3 m Hc H3)).
    reflexivity.
  - apply Hdec. unfold policyQuery. now rewrite Hc, H1.
  - rewrite escalationQuery_eval.
    rewrite (buildPolicyMatch_eval _ _ _ _ _ _ Hc),
      (buildPolicyMatch_eval _ _ _ _ _ _ H1).
    rewrite demo_formula_current, demo_formula_new_1. vm_compute. reflexivity.
  - intros m. now apply (demo_request_1_model localeCompare phic phi1).
Qed.

Lemma runDemo_output_witness :
  runDemo codeUnitCompare
    (model_checking_solver (model_of "secret/posts/admin" "read"))
    (fixed_model (model_of "secret/posts/admin" "read")) no_rendering
  = Some [ String (ascii_of_nat 10) "Testing with deny capability...";
           "Privilege escalation detected!";
           "Example path: secret/posts/admin";
           "Example capability: read";
           "No privilege escalation detected.";
           "No privilege escalation detected." ].
Proof.
  apply (runDemo_output codeUnitCompare
           (model_checking_solver (model_of "secret/posts/admin" "read"))
           (fixed_model (model_of "secret/posts/admin" "read")) no_rendering).
  - intros q. apply model_checking_solver_sound.
  - intros q Hq. injection Hq as <-. vm_compute. discriminate.
Defined.

(** ** The characters a compiled pattern can match *)

Lemma all_chars_spec (f : ascii -> bool) (s : string) :
  all_chars f s = true <-> forall c, has_char c s = true -> f c = true.
Proof.
  induction s as [| a s IH]; simpl.
  - split; [intros _ c; discriminate | reflexivity].
  - rewrite andb_true_iff, IH. split.
    + intros [Ha Hs] c Hc. apply orb_true_iff in Hc as [Hc | Hc]; [| auto].
      apply Ascii.eqb_eq in Hc. now subst c.
    + intros H. split.
      * apply H. now rewrite Ascii.eqb_refl.
      * intros c Hc. apply H. rewrite Hc. apply orb_true_r.
Qed.

Lemma all_chars_append (f : ascii -> bool) (s1 s2 : string) :
  all_chars f (s1 ++ s2) = all_chars f s1 && all_chars f s2.
Proof.
  induction s1 as [| a s1 IH]; simpl; [reflexivity |].
  now rewrite IH, andb_assoc.
Qed.

Lemma all_chars_weaken (f g : ascii -> bool) (s : string) :
  (forall c, f c = true -> g c = true) ->
  all_chars f s = true -> all_chars g s = true.
Proof.
  intros H. rewrite !all_chars_spec. intros Hf c Hc. auto.
Qed.

Lemma has_char_single (c a : ascii) :
  has_char c (String a "") = true -> a = c.
Proof.
  cbn [has_char]. rewrite orb_false_r. apply Ascii.eqb_eq.
Qed.

Lemma has_char_cons (c a : ascii) (s : string) :
  has_char c (String a s) = Ascii.eqb a c || has_char c s.
Proof. reflexivity. Qed.

Lemma split_from_piece_chars (s acc piece : string) (c : ascii) :
  In piece (JS.split_from s acc) -> has_char c piece = true ->
  has_char c acc = true \/ has_char c s = true.
Proof.
  revert acc. induction s as [| a s IH]; intros acc; cbn [JS.split_from].
  - intros [<- | []] H. now left.
  - rewrite has_char_cons. destruct (Ascii.eqb_spec a "+") as [-> | Ea].
    + intros [<- | [<- | Hin]] H.
      * now left.
      * right. apply has_char_single in H. subst c.
        now rewrite Ascii.eqb_refl.
      * destruct (IH "" Hin H) as [H' | H']; [discriminate |].
        right. rewrite H'. apply orb_true_r.
    + destruct (Ascii.eqb a "*" && (s =? "")%string) eqn:Es.
      * intros [<- | [<- | Hin]] H.
        -- now left.
        -- right. apply has_char_single in H. subst c.
           apply andb_true_iff in Es as [Es _]. apply Ascii.eqb_eq in Es.
           subst a. now rewrite Ascii.eqb_refl.
        -- destruct (IH "" Hin H) as [H' | H']; [discriminate |].
           right. rewrite H'. apply orb_true_r.
      * intros Hin H. destruct (IH _ Hin H) as [H' | H'].
        -- rewrite has_char_append in H'. apply orb_true_iff in H' as [H' | H'];
             [now left |].
           right. apply has_char_single in H'. subst c.
           now rewrite Ascii.eqb_refl.
        -- right. rewrite H'. apply orb_true_r.
Qed.

Lemma literal_char_path_char (c : ascii) :
  literal_char c = true -> path_char c = true.
Proof. unfold path_char. now intros ->. Qed.

Lemma rePart_chars (p piece : string) (r : Z3.re_ast) (w : string) :
  plain p = true ->
  (forall c, has_char c piece = true -> has_char c p = true) ->
  piece = "+" \/ has_char "+" piece = false ->
  In r (rePart piece) -> Z3.in_re r w ->
  all_chars (fun c => path_char c || (has_char c p && negb (Ascii.eqb c "+"))) w
  = true.
Proof.
  intros Hplain Hsub Hplus Hin Hw. unfold rePart in Hin.
  destruct (String.eqb_spec piece "*") as [-> | _].
  { destruct Hin as [<- | []]. apply star_path_chars in Hw.
    apply (all_chars_weaken path_char); [| assumption].
    intros c ->. reflexivity. }
  destruct (String.eqb_spec piece "+") as [-> | Hne].
  { destruct Hin as [<- | []].
    apply plus_wildcard_language in Hw as [_ Hw].
    apply (all_chars_weaken literal_char); [| assumption].
    intros c Hc. now rewrite (literal_char_path_char c Hc). }
  destruct (negb (piece =? "")%string); [| contradiction].
  destruct Hin as [<- | []].
  assert (Hpiece : plain piece = true).
  { unfold plain in *. rewrite all_chars_spec in Hplain.
    apply all_chars_spec. auto. }
  rewrite (mk_string_plain piece Hpiece) in Hw. inversion Hw; subst.
  destruct Hplus as [-> | Hplus]; [congruence |].
  apply all_chars_spec. intros c Hc. rewrite (Hsub c Hc). simpl.
  destruct (Ascii.eqb_spec c "+") as [-> | _]; [congruence |].
  apply orb_true_r.
Qed.

Lemma concat_chars (Q : ascii -> bool) (parts : list Z3.re_ast) (s : string) :
  (forall r w, In r parts -> Z3.in_re r w -> all_chars Q w = true) ->
  Z3.in_re (Z3.mk_re_concat parts) s -> all_chars Q s = true.
Proof.
  revert s. induction parts as [| r parts IH]; intros s Hparts H.
  - apply in_re_concat_nil_inv in H as ->. reflexivity.
  - apply in_re_concat_inv in H as (s1 & s2 & -> & H1 & H2).
    rewrite all_chars_append, (Hparts r s1), IH; auto.
    + intros r' w Hin. apply Hparts. now right.
    + now left.
Qed.

(** X22. For a plain pattern (ASCII characters, no backslash), every
    character of a path that the compiled pattern matches is a letter, a
    digit, [-], [_], [.] or [/], or a character of the pattern itself other
    than [+]; in particular no such pattern matches a path that holds a
    [+]. *)
Theorem compiled_pattern_alphabet (p : string) (re : Z3.re_ast) (s : string) :
  plain p = true ->
  buildRegexFromPath p = Some re ->
  Z3.re_match re s = true ->
  (forall c, has_char c s = true ->
             path_char c = true \/ (has_char c p = true /\ c <> "+"%char)) /\
  has_char "+" s = false.
Proof.
  intros Hplain Hre Hm. apply (buildRegexFromPath_language _ _ Hre) in Hm.
  assert (Hall : all_chars
                   (fun c => path_char c
                             || (has_char c p && negb (Ascii.eqb c "+"))) s
                 = true).
  { apply (concat_chars _ _ _) with (2 := Hm).
    intros r w Hin Hw. apply in_flat_map in Hin as (piece & Hpiece & Hr).
    apply (rePart_chars p piece r w); auto.
    - intros c Hc. unfold JS.split in Hpiece.
      destruct (split_from_piece_chars p "" piece c Hpiece Hc);
        [discriminate | assumption].
    - pose proof (split_from_plus_pieces p "" eq_refl) as Hf.
      rewrite Forall_forall in Hf. now apply Hf. }
  rewrite all_chars_spec in Hall. split.
  - intros c Hc. specialize (Hall c Hc).
    apply orb_true_iff in Hall as [H | H]; [now left | right].
    apply andb_true_iff in H as [H1 H2]. split; [assumption |].
    intros ->. rewrite Ascii.eqb_refl in H2. discriminate.
  - destruct (has_char "+" s) eqn:E; [| reflexivity].
    specialize (Hall "+"%char E).
    rewrite Ascii.eqb_refl, andb_false_r, orb_false_r in Hall.
    vm_compute in Hall. discriminate.
Qed.

Lemma compiled_pattern_alphabet_witness :
  (forall c, has_char c "secret/app/x-1/y" = true ->
             path_char c = true \/
             (has_char c "secret/app/*" = true /\ c <> "+"%char)) /\
  has_char "+" "secret/app/x-1/y" = false.
Proof.
  apply (compiled_pattern_alphabet "secret/app/*" secret_app_star
           "secret/app/x-1/y"); reflexivity.
Defined.

(** ** The verdict and the order of the rules *)

(** Two enumeration orders of one mapping give formulas with the same value
    in every model. *)
Lemma buildPolicyMatch_Permutation_eval
    (localeCompare : string -> string -> Z) (pathVar capVar : Z3.seq_ast)
    (rules1 rules2 : Policy) (phi1 phi2 : Z3.bool_ast) (m : Z3.model) :
  consistent_collation localeCompare ->
  wf_policy rules1 ->
  Permutation rules1 rules2 ->
  buildPolicyMatch localeCompare pathVar capVar rules1 = Some phi1 ->
  buildPolicyMatch localeCompare pathVar capVar rules2 = Some phi2 ->
  Z3.eval m phi1 = Z3.eval m phi2.
Proof.
  intros Hc Hwf Hp H1 H2.
  rewrite (buildPolicyMatch_eval _ _ _ _ _ m H1),
    (buildPolicyMatch_eval _ _ _ _ _ m H2).
  unfold formula_value, sortedAllowPaths.
  rewrite (sort_Permutation_eq _ Hc _ _
             (allowPaths_Permutation rules1 rules2 Hwf Hp)).
  rewrite (existsb_Permutation _ _ _ (denyPaths_Permutation rules1 rules2 Hwf Hp)).
  destruct (find (path_matches m pathVar)
              (rev (JS.sort (comparePathPriority localeCompare)
                      (allowPaths rules2)))) as [q |]; [| reflexivity].
  now rewrite (get_Permutation rules1 rules2 q Hwf Hp).
Qed.

(** X23. The order in which a policy object lists its patterns does not
    matter to the verdict: checking a policy against any rearrangement of
    itself gives, with a sound solver, the no-escalation result. *)
Theorem rearranged_policy_no_escalation
    (localeCompare : string -> string -> Z)
    (solver_check : Z3.bool_ast -> Z3.Z3_lbool)
    (solver_get_model : Z3.bool_ast -> Z3.model)
    (ast_to_string : Z3.bool_ast -> string)
    (rules1 rules2 : Policy) (phi1 phi2 : Z3.bool_ast) :
  consistent_collation localeCompare ->
  wf_policy rules1 ->
  Permutation rules1 rules2 ->
  buildPolicyMatch localeCompare inputPath inputCap rules1 = Some phi1 ->
  buildPolicyMatch localeCompare inputPath inputCap rules2 = Some phi2 ->
  solver_sound_on solver_check solver_get_model (escalationQuery phi1 phi2) ->
  (forall m, Z3.eval m phi1 = Z3.eval m phi2) /\
  exists calls,
    checkPrivilegeEscalation localeCompare solver_check solver_get_model
      ast_to_string rules1 rules2
    = Some ({| result := false;
               path := None;
               capability := None;
               z3 := {| currentPolicyAst := ast_to_string phi1;
                        newPolicyAst := ast_to_string phi2 |} |},
            calls).
Proof.
  intros Hc Hwf Hp H1 H2 [Hsat _].
  assert (Heq : forall m, Z3.eval m phi1 = Z3.eval m phi2).
  { intros m.
    exact (buildPolicyMatch_Permutation_eval localeCompare inputPath inputCap
             rules1 rules2 phi1 phi2 m Hc Hwf Hp H1 H2). }
  split; [exact Heq |].
  apply checkPrivilegeEscalation_not_sat; auto.
  intros Hv. specialize (Hsat Hv). rewrite escalationQuery_eval, Heq in Hsat.
  destruct (Z3.eval (solver_get_model (escalationQuery phi1 phi2)) phi2);
    discriminate.
Qed.

Lemma rearranged_policy_no_escalation_witness :
  exists phi1 phi2,
    buildPolicyMatch codeUnitCompare inputPath inputCap mixed_policy = Some phi1 /\
    buildPolicyMatch codeUnitCompare inputPath inputCap mixed_policy_reversed
    = Some phi2 /\
    phi1 <> phi2 /\
    (forall m, Z3.eval m phi1 = Z3.eval m phi2) /\
    exists calls,
      checkPrivilegeEscalation codeUnitCompare (verdict Z3.Z3_L_FALSE)
        (fixed_model (model_of "" "")) no_rendering
        mixed_policy mixed_policy_reversed
      = Some ({| result := false;
                 path := None;
                 capability := None;
                 z3 := {| currentPolicyAst := no_rendering phi1;
                          newPolicyAst := no_rendering phi2 |} |},
              calls).
Proof.
  eexists _, _. split; [reflexivity |]. split; [reflexivity |].
  split; [vm_compute; discriminate |].
  apply (rearranged_policy_no_escalation codeUnitCompare
           (verdict Z3.Z3_L_FALSE) (fixed_model (model_of "" "")) no_rendering
           mixed_policy mixed_policy_reversed).
  - exact codeUnitCompare_consistent.
  - exact mixed_policy_wf.
  - exact mixed_policy_Permutation.
  - reflexivity.
  - reflexivity.
  - split; [discriminate |]. intros _ m. rewrite escalationQuery_eval.
    rewrite (buildPolicyMatch_Permutation_eval codeUnitCompare inputPath inputCap
               mixed_policy mixed_policy_reversed _ _ m
               codeUnitCompare_consistent mixed_policy_wf
               mixed_policy_Permutation eq_refl eq_refl).
    apply andb_negb_l.
Defined.
